(** * TrajectoryValidation: the admission-control contract and its ledger

    A shallow embedding of [smartContract.sol] (Solidity ^0.8.0) and of the
    coordinate scaling of [src/utils/contract.ts].

    Unsigned 256-bit integers are modelled as [N], signed ones as [Z]; every
    arithmetic operation is the checked one of Solidity 0.8, which aborts the
    call with [Panic] instead of wrapping around.  A call either returns a
    value or aborts; an aborted call leaves storage and the event log
    untouched.  Arrays are lists; their lengths stay far below [2 ^ 256], so
    the loop counters are not modelled as checked integers and the loops are
    recursions on the arrays.  Gas is not modelled.

    JavaScript numbers are modelled as binary64 values: a finite number is a
    mantissa and an exponent, and every operation returns the exact result
    rounded to nearest, ties to even. *)

From Stdlib Require Import String ZArith NArith List Bool Lia Sorted.
From Stdlib Require Import QArith Qround Qabs Qpower Lqa.
From Stdlib Require Import Floats.SpecFloat.
From Equations Require Import Equations.
From Equations.Prop Require Import Logic.
Import ListNotations.
Local Close Scope Q_scope.

Set Implicit Arguments.

(** ** Outcome of an EVM call *)

Inductive result (A : Type) : Type :=
| Ok (a : A)
| Revert (reason : string)
| Panic (code : N).

Arguments Ok {A} a.
Arguments Revert {A} reason.
Arguments Panic {A} code.

Definition bind {A B : Type} (r : result A) (k : A -> result B) : result B :=
  match r with
  | Ok a => k a
  | Revert m => Revert m
  | Panic c => Panic c
  end.

Notation "'do' x <- r ; k" := (bind r (fun x => k))
  (at level 10, x name, r at level 100, k at level 200).

(** [require(cond, reason)] *)
Definition require (cond : bool) (reason : string) : result unit :=
  if cond then Ok tt else Revert reason.

(** Panic codes of the Solidity compiler. *)
Definition ARITHMETIC : N := 17.       (* 0x11: overflow or underflow *)
Definition DIVISION_BY_ZERO : N := 18. (* 0x12 *)
Definition OUT_OF_BOUNDS : N := 50.    (* 0x32 *)

(** ** Checked [uint256] arithmetic *)

Module Uint.
Open Scope N_scope.

Definition modulus : N := 2 ^ 256.
Definition max : N := modulus - 1.

Definition add (a b : N) : result N :=
  if a + b <? modulus then Ok (a + b) else Panic ARITHMETIC.

Definition sub (a b : N) : result N :=
  if b <=? a then Ok (a - b) else Panic ARITHMETIC.

Definition div (a b : N) : result N :=
  if b =? 0 then Panic DIVISION_BY_ZERO else Ok (a / b).
End Uint.

(** ** Checked [int256] arithmetic *)

Module Int.
Open Scope Z_scope.

Definition min : Z := - 2 ^ 255.
Definition max : Z := 2 ^ 255 - 1.

Definition in_range (z : Z) : bool := (min <=? z) && (z <=? max).

Definition checked (z : Z) : result Z :=
  if in_range z then Ok z else Panic ARITHMETIC.

Definition add (a b : Z) : result Z := checked (a + b).
Definition sub (a b : Z) : result Z := checked (a - b).
Definition mul (a b : Z) : result Z := checked (a * b).

(** The explicit conversion [uint(x)]: the two's complement bit pattern of
    [x] read as an unsigned number; it never aborts. *)
Definition to_uint (z : Z) : N := Z.to_N (z mod 2 ^ 256).
End Int.

(** ** Constants *)

Definition COLLISION_DISTANCE : N := 7.
Definition TIME_SLOT : N := 1.

(** ** Structs, events and storage *)

Record Coordinate : Type := mkCoordinate {
  latitude : Z;
  longitude : Z
}.

Record Trajectory : Type := mkTrajectory {
  carId : N;
  startSlot : N;
  endSlot : N;
  path : list Coordinate
}.

Record TrajectorySubmitted : Type := mkEvent {
  ev_carId : N;
  ev_accepted : bool;
  ev_startSlot : N;
  ev_endSlot : N
}.

(** The contract's only storage variable, together with the log of the events
    emitted so far. *)
Record State : Type := mkState {
  validatedTrajectories : list Trajectory;
  events : list TrajectorySubmitted
}.

Definition genesis : State := mkState [] [].

(** ** Math *)

(** One round of the loop body of [sqrt]: [z = (x / z + z) / 2]. *)
Definition sqrt_next (x z : N) : result N :=
  do q <- Uint.div x z ;
  do s <- Uint.add q z ;
  Uint.div s 2.

(** The order on which the loop of [sqrt] descends; the accessibility proof
    is built on demand, so that the loop evaluates on 256-bit inputs. *)
#[local] Instance N_lt_WellFounded : WellFounded N.lt :=
  Acc_intro_generator 512 N.lt_wf_0.
#[local] Opaque N_lt_WellFounded.

(** The loop [while (z < y) { y = z; z = (x / z + z) / 2; }], returning the
    final [y]. *)
Equations? sqrt_loop (x y z : N) : result N by wf y N.lt :=
  sqrt_loop x y z with inspect (z <? y)%N := {
    | exist _ true Hlt with sqrt_next x z := {
        | Ok z' => sqrt_loop x z z'
        | Revert m => Revert m
        | Panic c => Panic c }
    | exist _ false _ => Ok y }.
Proof. now apply N.ltb_lt. Qed.

Definition sqrt (x : N) : result N :=
  if (x =? 0)%N then Ok 0%N
  else
    do z <- (do s <- Uint.add x 1 ; Uint.div s 2) ;
    sqrt_loop x x z.

(** The successive values taken by the variable [y] of [sqrt]'s loop (a ghost
    trace of the same loop, used to state how the iteration proceeds). *)
Equations? sqrt_iterates (x y z : N) : list N by wf y N.lt :=
  sqrt_iterates x y z with inspect (z <? y)%N := {
    | exist _ true Hlt with sqrt_next x z := {
        | Ok z' => y :: sqrt_iterates x z z'
        | Revert _ => [y]
        | Panic _ => [y] }
    | exist _ false _ => [y] }.
Proof. now apply N.ltb_lt. Qed.

Definition distance (a b : Coordinate) : result N :=
  do dx <- Int.sub (latitude a) (latitude b) ;
  do dy <- Int.sub (longitude a) (longitude b) ;
  do xx <- Int.mul dx dx ;
  do yy <- Int.mul dy dy ;
  do sum <- Int.add xx yy ;
  sqrt (Int.to_uint sum).

(** ** Collision logic *)

(** The time overlap check of [isCollision]. *)
Definition timeOverlap (newStart newEnd : N) (existing : Trajectory) : bool :=
  ((newStart <? endSlot existing) && (startSlot existing <? newEnd))%N.

(** The loop over [n]: one point of the new path against every second point
    of a stored path.  [Ok true] stands for the [return true] that leaves
    [isCollision] at once. *)
Fixpoint scanExisting (p : Coordinate) (existingPath : list Coordinate)
  : result bool :=
  match existingPath with
  | [] => Ok false
  | q :: rest =>
      do d <- distance p q ;
      if (d <=? COLLISION_DISTANCE)%N then Ok true
      else match rest with
           | [] => Ok false
           | _ :: rest' => scanExisting p rest'
           end
  end.

(** The loop over [m]: every second point of the new path. *)
Fixpoint spatialCheck (newPath existingPath : list Coordinate) : result bool :=
  match newPath with
  | [] => Ok false
  | p :: rest =>
      do hit <- scanExisting p existingPath ;
      if hit then Ok true
      else match rest with
           | [] => Ok false
           | _ :: rest' => spatialCheck rest' existingPath
           end
  end.

(** The loop over [i]: the stored trajectories in index order. *)
Fixpoint scanTrajectories (trajectories : list Trajectory)
    (newStart newEnd : N) (newPath : list Coordinate) : result bool :=
  match trajectories with
  | [] => Ok false
  | existing :: rest =>
      if timeOverlap newStart newEnd existing then
        do hit <- spatialCheck newPath (path existing) ;
        if hit then Ok true
        else scanTrajectories rest newStart newEnd newPath
      else scanTrajectories rest newStart newEnd newPath
  end.

Definition isCollision (s : State) (newStart newEnd : N)
    (newPath : list Coordinate) : result bool :=
  scanTrajectories (validatedTrajectories s) newStart newEnd newPath.

(** ** Storage writes and events *)

Definition emit (e : TrajectorySubmitted) (s : State) : State :=
  mkState (validatedTrajectories s) (events s ++ [e]).

(** [validatedTrajectories.push()]: a zero-initialised element at the end. *)
Definition push (s : State) : State :=
  mkState (validatedTrajectories s ++ [mkTrajectory 0 0 0 []]) (events s).

(** A write through the storage reference [validatedTrajectories[index]]. *)
Definition store (index : N) (f : Trajectory -> Trajectory) (s : State)
  : result State :=
  let i := N.to_nat index in
  match nth_error (validatedTrajectories s) i with
  | None => Panic OUT_OF_BOUNDS
  | Some t =>
      Ok (mkState (firstn i (validatedTrajectories s) ++ f t ::
                   skipn (S i) (validatedTrajectories s))
                  (events s))
  end.

Definition set_carId (v : N) (t : Trajectory) : Trajectory :=
  mkTrajectory v (startSlot t) (endSlot t) (path t).
Definition set_startSlot (v : N) (t : Trajectory) : Trajectory :=
  mkTrajectory (carId t) v (endSlot t) (path t).
Definition set_endSlot (v : N) (t : Trajectory) : Trajectory :=
  mkTrajectory (carId t) (startSlot t) v (path t).
Definition push_path (c : Coordinate) (t : Trajectory) : Trajectory :=
  mkTrajectory (carId t) (startSlot t) (endSlot t) (path t ++ [c]).

(** [for (i = 0; i < path.length; i++) stored.path.push(path[i]);] *)
Fixpoint copyPath (stored : N) (path : list Coordinate) (s : State)
  : result State :=
  match path with
  | [] => Ok s
  | c :: rest =>
      do s' <- store stored (push_path c) s ;
      copyPath stored rest s'
  end.

(** ** Main function *)

Definition submitTrajectory (carId startTime endTime : N)
    (path : list Coordinate) (s : State) : result (bool * State) :=
  do _ <- require (0 <? N.of_nat (length path))%N "Empty path"%string ;
  do startSlot <- Uint.div startTime TIME_SLOT ;
  do endSlot <- Uint.div endTime TIME_SLOT ;
  do _ <- require (startSlot <? endSlot)%N "Invalid time window"%string ;
  do collision <- isCollision s startSlot endSlot path ;
  if collision then
    Ok (false, emit (mkEvent carId false startSlot endSlot) s)
  else
    let s := push s in
    do last <- Uint.sub (N.of_nat (length (validatedTrajectories s))) 1 ;
    do s <- store last (set_carId carId) s ;
    do s <- store last (set_startSlot startSlot) s ;
    do s <- store last (set_endSlot endSlot) s ;
    do s <- copyPath last path s ;
    Ok (true, emit (mkEvent carId true startSlot endSlot) s).

(** ** View helpers *)

Definition getTrajectoryCount (s : State) : result N :=
  Ok (N.of_nat (length (validatedTrajectories s))).

(** An array read [a[index]]. *)
Definition at_index {A : Type} (a : list A) (index : N) : result A :=
  match nth_error a (N.to_nat index) with
  | Some v => Ok v
  | None => Panic OUT_OF_BOUNDS
  end.

Definition getTrajectoryMeta (index : N) (s : State)
  : result (N * N * N * N) :=
  do _ <- require (index <? N.of_nat (length (validatedTrajectories s)))%N
         "Index out of bounds"%string ;
  do t <- at_index (validatedTrajectories s) index ;
  Ok (carId t, startSlot t, endSlot t, N.of_nat (length (path t))).

Definition getTrajectoryCoordinate (trajIndex coordIndex : N) (s : State)
  : result (Z * Z) :=
  do _ <- require (trajIndex <? N.of_nat (length (validatedTrajectories s)))%N
         "Invalid trajectory"%string ;
  do t <- at_index (validatedTrajectories s) trajIndex ;
  do _ <- require (coordIndex <? N.of_nat (length (path t)))%N
         "Invalid coordinate"%string ;
  do c <- at_index (path t) coordIndex ;
  Ok (latitude c, longitude c).

(** ** Transactions

    The external interface of the contract.  A call that aborts is rolled
    back: neither its storage writes nor its events survive. *)

Inductive call : Type :=
| SubmitTrajectory (carId startTime endTime : N) (path : list Coordinate)
| GetTrajectoryCount
| GetTrajectoryMeta (index : N)
| GetTrajectoryCoordinate (trajIndex coordIndex : N).

Inductive retval : Type :=
| RBool (b : bool)
| RUint (n : N)
| RMeta (m : N * N * N * N)
| RCoordinate (c : Z * Z).

Definition execute (c : call) (s : State) : result (retval * State) :=
  match c with
  | SubmitTrajectory carId startTime endTime path =>
      do r <- submitTrajectory carId startTime endTime path s ;
      Ok (RBool (fst r), snd r)
  | GetTrajectoryCount =>
      do n <- getTrajectoryCount s ; Ok (RUint n, s)
  | GetTrajectoryMeta index =>
      do m <- getTrajectoryMeta index s ; Ok (RMeta m, s)
  | GetTrajectoryCoordinate trajIndex coordIndex =>
      do c <- getTrajectoryCoordinate trajIndex coordIndex s ; Ok (RCoordinate c, s)
  end.

Definition transact (s : State) (c : call) : State * result retval :=
  match execute c s with
  | Ok (v, s') => (s', Ok v)
  | Revert m => (s, Revert m)
  | Panic code => (s, Panic code)
  end.

(** The state after a sequence of calls, and the number of submissions among
    them that returned [true]. *)
Definition run (s : State) (calls : list call) : State :=
  fold_left (fun s c => fst (transact s c)) calls s.

Definition is_accepted (r : result retval) : bool :=
  match r with
  | Ok (RBool true) => true
  | _ => false
  end.

Fixpoint accepted (s : State) (calls : list call) : nat :=
  match calls with
  | [] => 0
  | c :: rest =>
      let (s', r) := transact s c in
      (if is_accepted r then 1 else 0) + accepted s' rest
  end.

Definition count (s : State) : nat := length (validatedTrajectories s).


(** ** Coordinate scaling on the client *)

Module Binary64.
Local Open Scope Q_scope.

(** A finite floating-point value, [mant * 2 ^ expo]. *)
Record float : Type := mkFloat { mant : Z; expo : Z }.

Definition to_Q (f : float) : Q := inject_Z (mant f) * 2 ^ expo f.

(** [floor (log2 |q|)] for a non-zero [q]. *)
Definition ilog2 (q : Q) : Z :=
  let d := (Z.log2 (Z.abs (Qnum q)) - Z.log2 (Z.pos (Qden q)))%Z in
  if Qle_bool (2 ^ d) (Qabs q) then d else (d - 1)%Z.

(** The nearest integer, ties to even. *)
Definition rne (x : Q) : Z :=
  let f := Qfloor x in
  match Qcompare (x - inject_Z f) (1 # 2) with
  | Lt => f
  | Gt => (f + 1)%Z
  | Eq => if Z.even f then f else (f + 1)%Z
  end.

(** Rounding to nearest, ties to even, on 53 bits, with the exponent range
    of binary64 (gradual underflow below [2 ^ -1022]); [None] stands for a
    result that is not finite. *)
Definition RN (q : Q) : option float :=
  if Qeq_bool q 0 then Some (mkFloat 0 0)
  else
    let e := Z.max (ilog2 q) (-1022) in
    let f := mkFloat (rne (q * 2 ^ (52 - e))) (e - 52) in
    if Qle_bool (2 ^ 1024) (Qabs (to_Q f)) then None else Some f.

(** [x * y] and [x / y] on numbers; a division by zero is not finite. *)
Definition fmul (x y : float) : option float := RN (to_Q x * to_Q y).
Definition fdiv (x y : float) : option float :=
  if Qeq_bool (to_Q y) 0 then None else RN (to_Q x / to_Q y).

(** [Math.round(x)]: the nearest integer, ties towards plus infinity. *)
Definition Math_round (x : float) : Z := Qfloor (to_Q x + (1 # 2)).

(** [Number(value)] for a bigint. *)
Definition Number_of (z : Z) : option float := RN (inject_Z z).

(** The literal [1e6]. *)
Definition million : float := mkFloat 1000000 0.

(** The same value in the Standard Library's specification of IEEE 754. *)
Definition to_spec (f : float) : spec_float :=
  match mant f with
  | Z0 => S754_zero false
  | Zpos m => S754_finite false m (expo f)
  | Zneg m => S754_finite true m (expo f)
  end.
End Binary64.

Import Binary64.

(** [BigInt(Math.round(value * 1e6))]; [BigInt] throws on a number that is
    not finite, which [None] stands for. *)
Definition scaleCoordinate (value : float) : option Z :=
  match fmul value million with
  | Some p => Some (Math_round p)
  | None => None
  end.

(** [Number(value) / 1e6] *)
Definition unscaleCoordinate (value : Z) : option float :=
  match Number_of value with
  | Some n => fdiv n million
  | None => None
  end.

(** The number that the literal [137.3730805] denotes. *)
Definition sample_degrees : float := mkFloat 4833385579301071 (-45).

(** ** Vocabulary of the statements *)

(** [dx * dx + dy * dy] over the unbounded integers. *)
Definition squares (a b : Coordinate) : Z :=
  ((latitude a - latitude b) * (latitude a - latitude b) +
   (longitude a - longitude b) * (longitude a - longitude b))%Z.

(** Coordinates inside the scaled decimal-degree range, at most 180 degrees
    at six decimals in absolute value. *)
Definition expected_range (c : Coordinate) : Prop :=
  (Z.abs (latitude c) <= 180 * 10 ^ 6 /\ Z.abs (longitude c) <= 180 * 10 ^ 6)%Z.

Definition in_range_path (cs : list Coordinate) : Prop :=
  Forall expected_range cs.

(** The slot of a timestamp. *)
Definition toSlot (t : N) : N := (t / TIME_SLOT)%N.

(** The shape shared by the loops over [m] and over [n]: visit every second
    element, leave with [true] at the first hit. *)
Fixpoint anyStride2 {A : Type} (f : A -> result bool) (l : list A)
  : result bool :=
  match l with
  | [] => Ok false
  | a :: rest =>
      do hit <- f a ;
      if hit then Ok true
      else match rest with
           | [] => Ok false
           | _ :: rest' => anyStride2 f rest'
           end
  end.

(** The comparison made for one pair of points. *)
Definition tooClose (p q : Coordinate) : result bool :=
  do d <- distance p q ; Ok (d <=? COLLISION_DISTANCE)%N.

(** The trajectory a successful submission stores, and the event of a
    submission. *)
Definition admitted (carId startTime endTime : N) (path : list Coordinate)
  : Trajectory :=
  mkTrajectory carId (toSlot startTime) (toSlot endTime) path.

Definition outcome (carId : N) (accepted : bool) (startTime endTime : N)
  : TrajectorySubmitted :=
  mkEvent carId accepted (toSlot startTime) (toSlot endTime).

(** Stored trajectories are well formed. *)
Definition well_formed (t : Trajectory) : Prop :=
  (startSlot t < endSlot t)%N /\ path t <> [].

(** The values of [y] during a call of [sqrt]. *)
Definition sqrt_trace (x : N) : list N :=
  if (x =? 0)%N then [0%N]
  else
    match (do s <- Uint.add x 1 ; Uint.div s 2) with
    | Ok z => sqrt_iterates x x z
    | _ => []
    end.

(** ** Sample data *)

Definition origin : Coordinate := mkCoordinate 0 0.

(** A point that no [int256] product can measure against [origin]. *)
Definition remote : Coordinate := mkCoordinate (2 ^ 128) 0.

(** One admitted trajectory, holding [remote]. *)
Definition one_car : State :=
  run genesis [SubmitTrajectory 9 0 10 [remote]].

(** Two admitted trajectories on adjacent windows: the first one holds
    [remote], the second one [origin]. *)
Definition two_cars : State :=
  run genesis [SubmitTrajectory 9 0 10 [remote];
               SubmitTrajectory 1 10 20 [origin]].

(** Behind [remote], a trajectory whose sampled points are a distant one and
    [origin]; the point between them, at an odd index, is [remote]. *)
Definition sampled_car : State :=
  run genesis [SubmitTrajectory 9 0 10 [remote];
               SubmitTrajectory 1 10 20 [mkCoordinate 100 100; remote; origin]].

(** One admitted trajectory that holds [remote] before [origin]. *)
Definition far_first : State :=
  run genesis [SubmitTrajectory 9 0 10 [remote; origin; origin]].

(** ** The rest of the client utilities *)

(** [Math.floor(x)] and the comparison [x > y] on numbers. *)
Definition Math_floor (x : float) : Z := Qfloor (to_Q x).

Definition fgt (x y : float) : bool := negb (Qle_bool (to_Q x) (to_Q y)).

(** The literals [1e12] and [1000]. *)
Definition million_millions : float := mkFloat 1000000000000 0.
Definition thousand : float := mkFloat 1000 0.

(** [timestampToSeconds]: above [1e12] the timestamp is taken to be in
    milliseconds. *)
Definition timestampToSeconds (timestamp : float) : option Z :=
  if fgt timestamp million_millions then
    match fdiv timestamp thousand with
    | Some q => Some (Math_floor q)
    | None => None
    end
  else Some (Math_floor timestamp).

(** A point in decimal degrees, [{ latitude: number; longitude: number }]. *)
Record Degrees : Type := mkDegrees {
  deg_latitude : float;
  deg_longitude : float
}.

(** [formatPathForContract]: [coordinates.map] with [scaleCoordinate] on both
    fields; the first number that cannot be scaled ends the call, for which
    [None] stands. *)
Fixpoint formatPathForContract (coordinates : list Degrees)
  : option (list Coordinate) :=
  match coordinates with
  | [] => Some []
  | coord :: rest =>
      match scaleCoordinate (deg_latitude coord) with
      | None => None
      | Some la =>
          match scaleCoordinate (deg_longitude coord) with
          | None => None
          | Some lo =>
              match formatPathForContract rest with
              | None => None
              | Some rest' => Some (mkCoordinate la lo :: rest')
              end
          end
      end
  end.

(** What the client keeps of a trajectory. *)
Record TrajectoryMeta : Type := mkMeta {
  meta_carId : N;
  meta_startSlot : N;
  meta_endSlot : N;
  meta_pathLength : N
}.

Record TrajectoryCoordinate : Type := mkTrajectoryCoordinate {
  tc_latitude : Z;
  tc_longitude : Z
}.

Record ClientTrajectory : Type := mkClientTrajectory {
  ct_index : nat;
  ct_meta : TrajectoryMeta;
  ct_coordinates : list TrajectoryCoordinate
}.

(** The reads of the client, as calls of the view functions on the state of
    the contract.  Indices and counts are numbers on the client; they stay
    far below [2 ^ 53], where numbers are exact, and are modelled as [nat]. *)
Definition fetchTrajectoryMeta (s : State) (index : nat)
  : result TrajectoryMeta :=
  do r <- getTrajectoryMeta (N.of_nat index) s ;
  let '(carId, startSlot, endSlot, pathLength) := r in
  Ok (mkMeta carId startSlot endSlot pathLength).

Definition fetchTrajectoryCoordinate (s : State) (trajIndex coordIndex : nat)
  : result TrajectoryCoordinate :=
  do r <- getTrajectoryCoordinate (N.of_nat trajIndex) (N.of_nat coordIndex) s ;
  Ok (mkTrajectoryCoordinate (fst r) (snd r)).

(** [for (let j = ...; j < pathLength; j++)] with [remaining] rounds to go. *)
Fixpoint fetchCoordinates (s : State) (i j remaining : nat)
  : result (list TrajectoryCoordinate) :=
  match remaining with
  | 0 => Ok []
  | S remaining' =>
      do coord <- fetchTrajectoryCoordinate s i j ;
      do rest <- fetchCoordinates s i (S j) remaining' ;
      Ok (coord :: rest)
  end.

(** [for (let i = ...; i < trajectoryCount; i++)] with [remaining] rounds to
    go. *)
Fixpoint fetchTrajectories (s : State) (i remaining : nat)
  : result (list ClientTrajectory) :=
  match remaining with
  | 0 => Ok []
  | S remaining' =>
      do meta <- fetchTrajectoryMeta s i ;
      do coordinates <-
        fetchCoordinates s i 0 (N.to_nat (meta_pathLength meta)) ;
      do rest <- fetchTrajectories s (S i) remaining' ;
      Ok (mkClientTrajectory i meta coordinates :: rest)
  end.

(** [fetchAllTrajectories]; an error of a call is thrown on to the caller. *)
Definition fetchAllTrajectories (s : State)
  : result (list ClientTrajectory) :=
  do count <- getTrajectoryCount s ;
  fetchTrajectories s 0 (N.to_nat count).

(** ** Vocabulary of the further statements *)

(** What a reload is expected to show of a stored trajectory. *)
Definition mirror (i : nat) (t : Trajectory) : ClientTrajectory :=
  mkClientTrajectory i
    (mkMeta (carId t) (startSlot t) (endSlot t) (N.of_nat (length (path t))))
    (map (fun c => mkTrajectoryCoordinate (latitude c) (longitude c))
         (path t)).

(** The stored trajectories from index [i] on, as a reload shows them. *)
Fixpoint mirrors (i : nat) (l : list Trajectory) : list ClientTrajectory :=
  match l with
  | [] => []
  | t :: rest => mirror i t :: mirrors (S i) rest
  end.

(** Degrees of absolute value at most 180. *)
Definition in_degrees (d : Degrees) : Prop :=
  (Qabs (to_Q (deg_latitude d)) <= 180 /\
   Qabs (to_Q (deg_longitude d)) <= 180)%Q.

(** The paths submitted by a sequence of calls. *)
Definition submitted_in_range (c : call) : Prop :=
  match c with
  | SubmitTrajectory _ _ _ p => in_range_path p
  | _ => True
  end.

(** A call as the client makes it: the path of a submission is what
    [formatPathForContract] returns for points within 180 degrees. *)
Definition from_client (c : call) : Prop :=
  match c with
  | SubmitTrajectory _ _ _ p =>
      exists ds, Forall in_degrees ds /\ formatPathForContract ds = Some p
  | _ => True
  end.

(** The events of the submissions that were accepted. *)
Definition accepted_events (s : State) : list TrajectorySubmitted :=
  filter ev_accepted (events s).

Definition event_of (t : Trajectory) : TrajectorySubmitted :=
  mkEvent (carId t) true (startSlot t) (endSlot t).

(** A stored trajectory was admitted against the ones stored before it. *)
Definition admitted_against (pre : list Trajectory) (t : Trajectory) : Prop :=
  scanTrajectories pre (startSlot t) (endSlot t) (path t) = Ok false.

Definition collision_free (l : list Trajectory) : Prop :=
  forall pre t suf, l = pre ++ t :: suf -> admitted_against pre t.

Definition in_range_ledger (l : list Trajectory) : Prop :=
  Forall (fun t => in_range_path (path t)) l.

Definition valid_event (e : TrajectorySubmitted) : Prop :=
  (ev_startSlot e < ev_endSlot e)%N.

(** * Properties *)

(** ** Integer square root *)

Section Newton.
Open Scope N_scope.

Lemma sqrt_loop_eq (x y z : N) :
  sqrt_loop x y z =
  if z <? y then (do z' <- sqrt_next x z ; sqrt_loop x z z') else Ok y.
Proof.
  rewrite sqrt_loop_equation_1.
  destruct (inspect (z <? y)) as [[] e]; simpl.
  - transitivity (do z' <- sqrt_next x z ; sqrt_loop x z z');
      [destruct (sqrt_next x z); reflexivity | now rewrite e].
  - now rewrite e.
Qed.

Lemma sqrt_iterates_eq (x y z : N) :
  sqrt_iterates x y z =
  y :: (if z <? y then
          match sqrt_next x z with
          | Ok z' => sqrt_iterates x z z'
          | _ => []
          end
        else []).
Proof.
  rewrite sqrt_iterates_equation_1.
  destruct (inspect (z <? y)) as [[] e]; simpl.
  - transitivity (y :: match sqrt_next x z with
                       | Ok z' => sqrt_iterates x z z'
                       | _ => []
                       end);
      [destruct (sqrt_next x z); reflexivity | now rewrite e].
  - now rewrite e.
Qed.

(** The arithmetic-geometric mean inequality on integers: a Newton step
    never goes below the integer square root. *)
Lemma newton_step_lower (x y : N) :
  0 < y -> N.sqrt x <= (x / y + y) / 2.
Proof.
  intros Hy.
  pose proof (N.sqrt_spec x (N.le_0_l x)) as [Hs _]. cbv zeta in Hs.
  pose proof (N.mul_succ_div_gt x y ltac:(lia)) as Hq.
  apply N.div_le_lower_bound; [lia |].
  set (s := N.sqrt x) in *. set (q := x / y) in *.
  destruct (N.le_gt_cases (2 * s) (q + y)) as [|Hlt]; [assumption | exfalso].
  assert (H1 : y * N.succ q <= y * (2 * s - y))
    by (apply N.mul_le_mono_l; lia).
  assert (H2 : y * (2 * s - y) <= s * s).
  { pose proof (Z.square_nonneg (Z.of_N s - Z.of_N y)). nia. }
  lia.
Qed.

(** When the step no longer decreases, [y] is at most the square root. *)
Lemma newton_fixpoint_upper (x y : N) :
  0 < y -> y <= (x / y + y) / 2 -> y <= N.sqrt x.
Proof.
  intros Hy Hle.
  apply N.sqrt_le_square.
  pose proof (N.Div0.mul_div_le (x / y + y) 2) as H2.
  pose proof (N.Div0.mul_div_le x y) as Hq.
  nia.
Qed.

(** The sum formed by a step stays within [x + 1]. *)
Lemma newton_sum_bound (x z : N) :
  0 < z -> z <= x -> x / z + z <= x + 1.
Proof.
  intros Hz Hle.
  assert (x / z < x + 2 - z); [| lia].
  apply N.Div0.div_lt_upper_bound.
  nia.
Qed.

Lemma sqrt_next_Ok (x z : N) :
  0 < z -> z <= x -> x < Uint.max ->
  sqrt_next x z = Ok ((x / z + z) / 2).
Proof.
  intros Hz Hle Hx. unfold sqrt_next, Uint.div, Uint.add.
  destruct (N.eqb_spec z 0); [lia |]. simpl.
  pose proof (newton_sum_bound Hz Hle) as Hs.
  destruct (N.ltb_spec (x / z + z) Uint.modulus) as [_|Hov].
  - reflexivity.
  - unfold Uint.max in Hx. lia.
Qed.

(** Loop invariant of [sqrt]: [y] is positive, at most [x], at least the
    square root, and [z] is the Newton step from [y]. *)
Lemma sqrt_loop_correct (x : N) :
  0 < x -> x < Uint.max ->
  forall y z, 0 < y -> y <= x -> N.sqrt x <= y -> z = (x / y + y) / 2 ->
  sqrt_loop x y z = Ok (N.sqrt x).
Proof.
  intros Hx Hmax y.
  induction y as [y IH] using (well_founded_induction N.lt_wf_0).
  intros z Hy Hyx Hsy ->.
  rewrite sqrt_loop_eq.
  pose proof (newton_step_lower x Hy) as Hlow.
  destruct (N.ltb_spec ((x / y + y) / 2) y) as [Hlt | Hge].
  - assert (Hs : 0 < N.sqrt x).
    { pose proof (N.sqrt_spec x (N.le_0_l x)) as [_ Hu]. cbv zeta in Hu.
      destruct (N.eq_0_gt_0_cases (N.sqrt x)) as [E | ?]; [| assumption].
      rewrite E in Hu. simpl in Hu. lia. }
    rewrite sqrt_next_Ok by lia. simpl.
    apply IH; [assumption | lia | lia | assumption | reflexivity].
  - f_equal. apply N.le_antisymm; [| assumption].
    apply newton_fixpoint_upper; assumption.
Qed.

Lemma sqrt_correct (x : N) : x < Uint.max -> sqrt x = Ok (N.sqrt x).
Proof.
  intros Hmax. unfold sqrt.
  destruct (N.eqb_spec x 0) as [-> | Hx]; [reflexivity |].
  unfold Uint.add, Uint.div.
  destruct (N.ltb_spec (x + 1) Uint.modulus) as [_ | Hov];
    [| unfold Uint.max in Hmax; lia].
  simpl. apply sqrt_loop_correct; try lia.
  - apply N.sqrt_le_lin.
  - rewrite N.div_same by assumption. f_equal. lia.
Qed.

(** Every element of the trace is bounded by its first one, [y]. *)
Lemma sqrt_iterates_head (x y z : N) :
  exists l, sqrt_iterates x y z = y :: l.
Proof. rewrite sqrt_iterates_eq. eauto. Qed.

Lemma sqrt_iterates_decreasing (x y z : N) :
  Sorted (fun a b => b < a) (sqrt_iterates x y z).
Proof.
  revert z. induction y as [y IH] using (well_founded_induction N.lt_wf_0).
  intros z. rewrite sqrt_iterates_eq.
  destruct (N.ltb_spec z y) as [Hlt | Hge]; [| repeat constructor].
  destruct (sqrt_next x z) as [z' | |]; [| repeat constructor ..].
  constructor; [apply IH; assumption |].
  destruct (sqrt_iterates_head x z z') as [l ->]. constructor. assumption.
Qed.

Lemma sqrt_iterates_last (x y z r : N) :
  sqrt_loop x y z = Ok r -> last (sqrt_iterates x y z) 0 = r.
Proof.
  revert z. induction y as [y IH] using (well_founded_induction N.lt_wf_0).
  intros z. rewrite sqrt_loop_eq, sqrt_iterates_eq.
  destruct (N.ltb_spec z y) as [Hlt | Hge].
  - destruct (sqrt_next x z) as [z' | |]; simpl; try discriminate.
    intros H. specialize (IH z Hlt z' H).
    destruct (sqrt_iterates_head x z z') as [l E]. rewrite E in *.
    exact IH.
  - simpl. congruence.
Qed.
End Newton.

(** ** Distance *)

Section Distance.
Open Scope Z_scope.

Lemma checked_in (z : Z) :
  Int.min <= z <= Int.max -> Int.checked z = Ok z.
Proof.
  intros H. unfold Int.checked, Int.in_range.
  destruct (Z.leb_spec Int.min z); [| lia].
  destruct (Z.leb_spec z Int.max); [reflexivity | lia].
Qed.

Lemma checked_out (z : Z) :
  ~ (Int.min <= z <= Int.max) -> Int.checked z = Panic ARITHMETIC.
Proof.
  intros H. unfold Int.checked, Int.in_range.
  destruct (Z.leb_spec Int.min z); [| reflexivity].
  destruct (Z.leb_spec z Int.max); [lia | reflexivity].
Qed.

Lemma checked_cases (z : Z) :
  (Int.min <= z <= Int.max /\ Int.checked z = Ok z) \/
  (~ (Int.min <= z <= Int.max) /\ Int.checked z = Panic ARITHMETIC).
Proof.
  destruct (Z_le_dec Int.min z); [destruct (Z_le_dec z Int.max) |];
    solve [left; split; [lia | apply checked_in; lia]
          | right; split; [lia | apply checked_out; lia]].
Qed.

(** The cast of a non-negative [int256] to [uint256] keeps its value. *)
Lemma to_uint_exact (z : Z) :
  0 <= z <= Int.max -> Z.of_N (Int.to_uint z) = z.
Proof.
  intros H. unfold Int.to_uint.
  rewrite Z.mod_small; [lia |].
  unfold Int.max in H.
  assert (2 ^ 255 < 2 ^ 256) by (apply Z.pow_lt_mono_r; lia). lia.
Qed.

Lemma to_uint_below_max (z : Z) :
  0 <= z <= Int.max -> (Int.to_uint z < Uint.max)%N.
Proof.
  intros H. pose proof (to_uint_exact H) as E.
  assert (Z.of_N (Int.to_uint z) < Z.of_N Uint.max); [| lia].
  rewrite E. unfold Int.max in H.
  replace (Z.of_N Uint.max) with (2 ^ 256 - 1) by (vm_compute; reflexivity).
  assert (2 ^ 255 < 2 ^ 256) by (apply Z.pow_lt_mono_r; lia). lia.
Qed.

Lemma sqrt_to_N (z : Z) :
  0 <= z -> N.sqrt (Z.to_N z) = Z.to_N (Z.sqrt z).
Proof.
  intros Hz. apply N.sqrt_unique.
  pose proof (Z.sqrt_spec z Hz) as Hs. cbv zeta in Hs.
  pose proof (Z.sqrt_nonneg z). nia.
Qed.

(** What [distance] does on every pair of coordinates. *)
Lemma distance_spec (a b : Coordinate) :
  distance a b =
  if squares a b <=? Int.max
  then Ok (Z.to_N (Z.sqrt (squares a b)))
  else Panic ARITHMETIC.
Proof.
  unfold distance, squares, Int.sub, Int.mul, Int.add.
  set (dx := latitude a - latitude b). set (dy := longitude a - longitude b).
  assert (Hmin : Int.min = - Int.max - 1) by reflexivity.
  assert (Hmax : 0 < Int.max) by reflexivity.
  assert (Hxx : Z.abs dx <= dx * dx) by nia.
  assert (Hyy : Z.abs dy <= dy * dy) by nia.
  assert (0 <= dx * dx) by nia. assert (0 <= dy * dy) by nia.
  destruct (Z.leb_spec (dx * dx + dy * dy) Int.max) as [Hin | Hout].
  - rewrite !checked_in by lia. simpl.
    rewrite !checked_in by lia. simpl.
    rewrite checked_in by lia. simpl.
    rewrite sqrt_correct by (apply to_uint_below_max; lia).
    f_equal. rewrite <- sqrt_to_N by lia. f_equal.
    apply N2Z.inj. rewrite to_uint_exact by lia. lia.
  - destruct (checked_cases dx) as [[? ->] | [_ ->]]; [simpl | reflexivity].
    destruct (checked_cases dy) as [[? ->] | [_ ->]]; [simpl | reflexivity].
    destruct (checked_cases (dx * dx)) as [[? ->] | [_ ->]];
      [simpl | reflexivity].
    destruct (checked_cases (dy * dy)) as [[? ->] | [_ ->]];
      [simpl | reflexivity].
    rewrite checked_out by lia. reflexivity.
Qed.

Lemma distance_Ok (a b : Coordinate) (d : N) :
  distance a b = Ok d ->
  squares a b <= Int.max /\ d = Z.to_N (Z.sqrt (squares a b)).
Proof.
  rewrite distance_spec.
  destruct (Z.leb_spec (squares a b) Int.max); [| discriminate].
  intros [= <-]. split; [assumption | reflexivity].
Qed.

Lemma squares_expected_range (a b : Coordinate) :
  expected_range a -> expected_range b ->
  0 <= squares a b <= 2 * (360 * 10 ^ 6) * (360 * 10 ^ 6).
Proof.
  unfold expected_range, squares. intros [? ?] [? ?].
  set (dx := latitude a - latitude b). set (dy := longitude a - longitude b).
  assert (Z.abs dx <= 360 * 10 ^ 6) by lia.
  assert (Z.abs dy <= 360 * 10 ^ 6) by lia.
  nia.
Qed.
End Distance.

(** ** Sampling at stride two *)

Section Stride.
Context {A : Type}.
Implicit Types (f : A -> result bool) (l : list A).

Lemma list_ind2 (P : list A -> Prop) :
  P [] -> (forall a, P [a]) -> (forall a b l, P l -> P (a :: b :: l)) ->
  forall l, P l.
Proof.
  intros H0 H1 H2.
  assert (H : forall l, P l /\ forall a, P (a :: l)).
  { induction l as [| b l [IH1 IH2]]; split; auto. }
  intros l. apply H.
Qed.

Lemma nth_error_stride a b l (i : nat) :
  nth_error (a :: b :: l) (2 * S i) = nth_error l (2 * i).
Proof. replace (2 * S i) with (S (S (2 * i))) by lia. reflexivity. Qed.

(** Without a failing comparison, the loop answers [true] exactly when some
    element at an even index is a hit. *)
Lemma anyStride2_spec f l :
  (forall i a, nth_error l (2 * i) = Some a -> exists b, f a = Ok b) ->
  exists b, anyStride2 f l = Ok b /\
            (b = true <->
             exists i a, nth_error l (2 * i) = Some a /\ f a = Ok true).
Proof.
  induction l as [| a | a a' l IH] using list_ind2; intros Hf.
  - exists false. split; [reflexivity |].
    split; [discriminate | intros (i & a & H & _)].
    destruct i; discriminate.
  - destruct (Hf 0 a eq_refl) as [b Hb]. exists b.
    split; [simpl; rewrite Hb; destruct b; reflexivity |].
    split.
    + intros ->. exists 0, a. auto.
    + intros (i & x & H & Hx). destruct i as [| i].
      * simpl in H. congruence.
      * replace (2 * S i) with (S (S (2 * i))) in H by lia.
        simpl in H. discriminate.
  - destruct (Hf 0 a eq_refl) as [b Hb].
    destruct IH as (b' & Hb' & Hiff).
    { intros i x H. apply (Hf (S i)). now rewrite nth_error_stride. }
    cbn [anyStride2]. rewrite Hb. cbn [bind]. destruct b.
    + exists true. split; [reflexivity |].
      split; [intros _; exists 0, a; auto | auto].
    + exists b'. split; [assumption |]. rewrite Hiff. split.
      * intros (i & x & H & Hx). exists (S i), x.
        now rewrite nth_error_stride.
      * intros (i & x & H & Hx). destruct i as [| i].
        -- simpl in H. congruence.
        -- rewrite nth_error_stride in H. eauto.
Qed.

(** A hit that is reported comes from an even index. *)
Lemma anyStride2_true f l :
  anyStride2 f l = Ok true ->
  exists i a, nth_error l (2 * i) = Some a /\ f a = Ok true.
Proof.
  induction l as [| a | a a' l IH] using list_ind2; cbn [anyStride2].
  - discriminate.
  - destruct (f a) as [[] | |] eqn:E; cbn [bind]; try discriminate.
    intros _. exists 0, a. auto.
  - destruct (f a) as [[] | |] eqn:E; cbn [bind]; try discriminate.
    + intros _. exists 0, a. auto.
    + intros H. destruct (IH H) as (i & x & Hi & Hx).
      exists (S i), x. now rewrite nth_error_stride.
Qed.

(** The last element of an array of even length is never visited. *)
Lemma anyStride2_skip_last f l a :
  Nat.Odd (length l) -> anyStride2 f (l ++ [a]) = anyStride2 f l.
Proof.
  induction l as [| x | x y l IH] using list_ind2; intros Hodd.
  - destruct Hodd as [k Hk]. simpl in Hk. lia.
  - reflexivity.
  - change ((x :: y :: l) ++ [a]) with (x :: y :: (l ++ [a])).
    simpl. rewrite IH; [reflexivity |].
    destruct Hodd as [k Hk]. simpl in Hk. exists (k - 1). lia.
Qed.

(** The last element of an array of odd length is visited. *)
Lemma last_even_index l a :
  Nat.Even (length l) ->
  exists i, nth_error (l ++ [a]) (2 * i) = Some a /\
            2 * i = length (l ++ [a]) - 1.
Proof.
  intros [k Hk]. exists k.
  rewrite length_app. cbn [length]. split; [| lia].
  rewrite nth_error_app2 by lia.
  replace (2 * k - length l) with 0 by lia. reflexivity.
Qed.
End Stride.

Lemma scanExisting_any (p : Coordinate) (existingPath : list Coordinate) :
  scanExisting p existingPath = anyStride2 (tooClose p) existingPath.
Proof.
  induction existingPath as [| q | q q' l IH] using list_ind2;
    [reflexivity | | ]; simpl; unfold tooClose;
    destruct (distance p q) as [d | |]; simpl; try reflexivity;
    destruct (d <=? COLLISION_DISTANCE)%N; try reflexivity; apply IH.
Qed.

Lemma spatialCheck_any (newPath existingPath : list Coordinate) :
  spatialCheck newPath existingPath =
  anyStride2 (fun p => scanExisting p existingPath) newPath.
Proof.
  induction newPath as [| p | p p' l IH] using list_ind2;
    [reflexivity | | ]; simpl;
    destruct (scanExisting p existingPath) as [[] | |]; simpl;
    try reflexivity; apply IH.
Qed.

(** ** The collision scan *)

Lemma distance_no_revert (p q : Coordinate) (m : string) :
  distance p q <> Revert m.
Proof.
  rewrite distance_spec. destruct (squares p q <=? Int.max)%Z; discriminate.
Qed.

Lemma tooClose_no_revert (p q : Coordinate) (m : string) :
  tooClose p q <> Revert m.
Proof.
  unfold tooClose. pose proof (@distance_no_revert p q m).
  destruct (distance p q); simpl; congruence.
Qed.

Lemma anyStride2_no_revert {A : Type} (f : A -> result bool) (l : list A)
    (m : string) :
  (forall a, f a <> Revert m) -> anyStride2 f l <> Revert m.
Proof.
  intros Hf.
  induction l as [| a | a a' l IH] using list_ind2; simpl;
    try discriminate;
    pose proof (Hf a); destruct (f a) as [[] | |]; simpl;
    congruence.
Qed.

Lemma spatialCheck_no_revert (newPath existingPath : list Coordinate)
    (m : string) :
  spatialCheck newPath existingPath <> Revert m.
Proof.
  rewrite spatialCheck_any. apply anyStride2_no_revert. intros p.
  rewrite scanExisting_any. apply anyStride2_no_revert.
  intros q. apply tooClose_no_revert.
Qed.

Lemma scanTrajectories_no_revert (l : list Trajectory) (newStart newEnd : N)
    (newPath : list Coordinate) (m : string) :
  scanTrajectories l newStart newEnd newPath <> Revert m.
Proof.
  induction l as [| t l IH]; simpl; [discriminate |].
  destruct (timeOverlap newStart newEnd t); [| assumption].
  pose proof (@spatialCheck_no_revert newPath (path t) m).
  destruct (spatialCheck newPath (path t)) as [[] | |]; simpl; congruence.
Qed.

(** The scan stops at the first stored trajectory that collides: what is
    stored after it plays no part. *)
Lemma scanTrajectories_first_hit (pre suf : list Trajectory) (t : Trajectory)
    (newStart newEnd : N) (newPath : list Coordinate) :
  scanTrajectories pre newStart newEnd newPath = Ok false ->
  timeOverlap newStart newEnd t = true ->
  spatialCheck newPath (path t) = Ok true ->
  scanTrajectories (pre ++ t :: suf) newStart newEnd newPath = Ok true.
Proof.
  intros Hpre Ht Hs. induction pre as [| t' pre IH]; simpl in *.
  - rewrite Ht, Hs. reflexivity.
  - destruct (timeOverlap newStart newEnd t'); [| auto].
    destruct (spatialCheck newPath (path t')) as [[] | |]; simpl in *;
      try discriminate. auto.
Qed.

Lemma scanTrajectories_true_inv (l : list Trajectory) (newStart newEnd : N)
    (newPath : list Coordinate) :
  scanTrajectories l newStart newEnd newPath = Ok true ->
  exists pre t suf,
    l = pre ++ t :: suf /\
    scanTrajectories pre newStart newEnd newPath = Ok false /\
    timeOverlap newStart newEnd t = true /\
    spatialCheck newPath (path t) = Ok true.
Proof.
  induction l as [| t l IH]; simpl; [discriminate |].
  destruct (timeOverlap newStart newEnd t) eqn:Ht.
  - destruct (spatialCheck newPath (path t)) as [[] | |] eqn:Hs; simpl;
      try discriminate.
    + intros _. exists [], t, l. auto.
    + intros H. destruct (IH H) as (pre & t' & suf & -> & Hpre & Ht' & Hs').
      exists (t :: pre), t', suf. simpl. rewrite Ht, Hs. auto.
  - intros H. destruct (IH H) as (pre & t' & suf & -> & Hpre & Ht' & Hs').
    exists (t :: pre), t', suf. simpl. rewrite Ht. auto.
Qed.

(** Trajectories that do not overlap in time are passed over without a
    look at their coordinates. *)
Lemma scanTrajectories_disjoint (l : list Trajectory) (newStart newEnd : N)
    (newPath : list Coordinate) :
  Forall (fun t => timeOverlap newStart newEnd t = false) l ->
  scanTrajectories l newStart newEnd newPath = Ok false.
Proof.
  induction 1 as [| t l Ht _ IH]; simpl; [reflexivity |].
  rewrite Ht. assumption.
Qed.

(** ** Storage writes *)

Lemma div_TIME_SLOT (t : N) : Uint.div t TIME_SLOT = Ok (toSlot t).
Proof. reflexivity. Qed.

Lemma store_last (pre : list Trajectory) (t : Trajectory)
    (ev : list TrajectorySubmitted) (f : Trajectory -> Trajectory) :
  store (N.of_nat (length pre)) f (mkState (pre ++ [t]) ev) =
  Ok (mkState (pre ++ [f t]) ev).
Proof.
  unfold store. cbn [validatedTrajectories events]. rewrite Nat2N.id.
  rewrite nth_error_app2, Nat.sub_diag by lia. cbn [nth_error].
  rewrite firstn_app, Nat.sub_diag, firstn_all. cbn [firstn].
  rewrite app_nil_r.
  rewrite skipn_all2 by (rewrite length_app; simpl; lia). reflexivity.
Qed.

Lemma copyPath_last (pre : list Trajectory) (ev : list TrajectorySubmitted)
    (cs : list Coordinate) :
  forall t,
    copyPath (N.of_nat (length pre)) cs (mkState (pre ++ [t]) ev) =
    Ok (mkState (pre ++ [mkTrajectory (carId t) (startSlot t) (endSlot t)
                                      (path t ++ cs)]) ev).
Proof.
  induction cs as [| c cs IH]; intros t; simpl.
  - rewrite app_nil_r. destruct t; reflexivity.
  - rewrite store_last. simpl. rewrite IH. unfold push_path. simpl.
    rewrite <- app_assoc. reflexivity.
Qed.

(** ** The main function, case by case *)

Lemma submitTrajectory_spec (carId startTime endTime : N)
    (path : list Coordinate) (s : State) :
  submitTrajectory carId startTime endTime path s =
  match path with
  | [] => Revert "Empty path"
  | _ :: _ =>
      if (toSlot startTime <? toSlot endTime)%N then
        match isCollision s (toSlot startTime) (toSlot endTime) path with
        | Ok true =>
            Ok (false, emit (outcome carId false startTime endTime) s)
        | Ok false =>
            Ok (true,
                mkState (validatedTrajectories s ++
                         [admitted carId startTime endTime path])
                        (events s ++ [outcome carId true startTime endTime]))
        | Revert m => Revert m
        | Panic code => Panic code
        end
      else Revert "Invalid time window"
  end.
Proof.
  unfold submitTrajectory. destruct path as [| c cs]; [reflexivity |].
  replace (0 <? N.of_nat (length (c :: cs)))%N with true
    by (symmetry; apply N.ltb_lt; simpl; lia).
  cbn [require bind]. rewrite !div_TIME_SLOT. cbn [bind].
  destruct (toSlot startTime <? toSlot endTime)%N; [| reflexivity].
  cbn [require bind].
  destruct (isCollision s (toSlot startTime) (toSlot endTime) (c :: cs))
    as [[] | |]; cbn [bind]; try reflexivity.
  destruct s as [l ev]. unfold push. cbn [validatedTrajectories events].
  unfold Uint.sub. rewrite length_app. cbn [length].
  replace (1 <=? N.of_nat (length l + 1))%N with true
    by (symmetry; apply N.leb_le; lia).
  replace (N.of_nat (length l + 1) - 1)%N with (N.of_nat (length l)) by lia.
  cbn [bind]. do 3 (rewrite store_last; cbn [bind]).
  rewrite copyPath_last. cbn [bind]. reflexivity.
Qed.

Lemma transact_submit (id startTime endTime : N) (p : list Coordinate)
    (s : State) :
  transact s (SubmitTrajectory id startTime endTime p) =
  match submitTrajectory id startTime endTime p s with
  | Ok (b, s') => (s', Ok (RBool b))
  | Revert m => (s, Revert m)
  | Panic code => (s, Panic code)
  end.
Proof.
  unfold transact, execute.
  destruct (submitTrajectory id startTime endTime p s) as [[b s'] | |];
    reflexivity.
Qed.

(** * Main results *)

(** ** Admission *)

(** C1: a submission with a non-empty path and a valid window for which the
    collision check runs to its end and finds nothing appends exactly one
    trajectory, at the index that was the count before, holding the given
    car, the floored slots and the submitted path; the count grows by one and
    the call returns [true]. *)
Theorem submit_accepted_appends (id startTime endTime : N)
    (p : list Coordinate) (s : State) :
  p <> [] ->
  (toSlot startTime < toSlot endTime)%N ->
  isCollision s (toSlot startTime) (toSlot endTime) p = Ok false ->
  exists s' t,
    submitTrajectory id startTime endTime p s = Ok (true, s') /\
    transact s (SubmitTrajectory id startTime endTime p) =
      (s', Ok (RBool true)) /\
    validatedTrajectories s' = validatedTrajectories s ++ [t] /\
    nth_error (validatedTrajectories s') (count s) = Some t /\
    carId t = id /\
    startSlot t = (startTime / TIME_SLOT)%N /\
    endSlot t = (endTime / TIME_SLOT)%N /\
    path t = p /\
    (forall i, nth_error (path t) i = nth_error p i) /\
    count s' = count s + 1 /\
    getTrajectoryCount s' = Ok (N.of_nat (count s) + 1)%N.
Proof.
  intros Hp Hw Hc.
  pose proof (submitTrajectory_spec id startTime endTime p s) as E.
  destruct p as [| c cs]; [congruence |].
  apply N.ltb_lt in Hw. rewrite Hw, Hc in E.
  eexists. exists (admitted id startTime endTime (c :: cs)).
  split; [exact E |].
  split; [rewrite transact_submit, E; reflexivity |].
  cbn [validatedTrajectories]. unfold count, getTrajectoryCount.
  cbn [validatedTrajectories].
  repeat split; try reflexivity.
  - rewrite nth_error_app2, Nat.sub_diag by lia. reflexivity.
  - rewrite length_app. reflexivity.
  - rewrite length_app. cbn [length]. f_equal. lia.
Qed.

Lemma submit_accepted_appends_witness :
  exists s' t,
    submitTrajectory 1 0 10 [mkCoordinate 40 (-74); mkCoordinate 41 (-75)]
      genesis = Ok (true, s') /\
    transact genesis
      (SubmitTrajectory 1 0 10 [mkCoordinate 40 (-74); mkCoordinate 41 (-75)])
      = (s', Ok (RBool true)) /\
    validatedTrajectories s' = validatedTrajectories genesis ++ [t] /\
    nth_error (validatedTrajectories s') (count genesis) = Some t /\
    carId t = 1%N /\
    startSlot t = (0 / TIME_SLOT)%N /\
    endSlot t = (10 / TIME_SLOT)%N /\
    path t = [mkCoordinate 40 (-74); mkCoordinate 41 (-75)] /\
    (forall i, nth_error (path t) i =
               nth_error [mkCoordinate 40 (-74); mkCoordinate 41 (-75)] i) /\
    count s' = count genesis + 1 /\
    getTrajectoryCount s' = Ok (N.of_nat (count genesis) + 1)%N.
Proof.
  apply submit_accepted_appends;
    [discriminate | reflexivity | reflexivity].
Defined.

(** The specification words C1 for every submission that collides with no
    stored trajectory.  The only trajectory of [one_car] lies [2 ^ 128]
    units away from the point submitted, so there is no collision; its window
    overlaps the submitted one, the distance is asked for, the checked product
    leaves [int256] and the call aborts: nothing is appended. *)
Lemma acceptance_preempted_by_overflow :
  validatedTrajectories one_car = [mkTrajectory 9 0 10 [remote]] /\
  [origin] <> [] /\
  (toSlot 5 < toSlot 15)%N /\
  (forall t, In t (validatedTrajectories one_car) ->
     ~ (timeOverlap (toSlot 5) (toSlot 15) t = true /\
        spatialCheck [origin] (path t) = Ok true)) /\
  (forall p q, In p [origin] -> In q [remote] ->
     (Z.of_N COLLISION_DISTANCE < Z.sqrt (squares p q))%Z) /\
  submitTrajectory 2 5 15 [origin] one_car = Panic ARITHMETIC /\
  transact one_car (SubmitTrajectory 2 5 15 [origin]) =
    (one_car, Panic ARITHMETIC) /\
  ~ (exists s', submitTrajectory 2 5 15 [origin] one_car = Ok (true, s')).
Proof.
  split; [reflexivity |]. split; [discriminate |]. split; [reflexivity |].
  split.
  { intros t [<- | []] [_ H]. discriminate H. }
  split.
  { intros p q [<- | []] [<- | []]. vm_compute. reflexivity. }
  split; [reflexivity |]. split; [reflexivity |].
  intros [s' H]. discriminate H.
Qed.

(** ** Time overlap *)

(** C2: the time overlap test holds exactly when
    [newStart < existing.endSlot] and [existing.startSlot < newEnd]; the
    windows [0,5) and [5,10) do not overlap; a trajectory that fails the test
    is passed over without its coordinates being read, so a submission whose
    window is disjoint from every stored one is accepted whatever the
    coordinates are. *)
Theorem time_overlap_half_open :
  (forall newStart newEnd existing,
     timeOverlap newStart newEnd existing = true <->
     (newStart < endSlot existing /\ startSlot existing < newEnd)%N) /\
  (forall id p, timeOverlap 5 10 (mkTrajectory id 0 5 p) = false) /\
  (forall existing rest newStart newEnd newPath,
     timeOverlap newStart newEnd existing = false ->
     scanTrajectories (existing :: rest) newStart newEnd newPath =
     scanTrajectories rest newStart newEnd newPath) /\
  (forall id startTime endTime p s,
     p <> [] ->
     (toSlot startTime < toSlot endTime)%N ->
     Forall (fun t => timeOverlap (toSlot startTime) (toSlot endTime) t = false)
            (validatedTrajectories s) ->
     submitTrajectory id startTime endTime p s =
     Ok (true,
         mkState (validatedTrajectories s ++ [admitted id startTime endTime p])
                 (events s ++ [outcome id true startTime endTime]))).
Proof.
  split; [| split; [| split]].
  - intros newStart newEnd existing. unfold timeOverlap.
    rewrite andb_true_iff, !N.ltb_lt. reflexivity.
  - reflexivity.
  - intros existing rest newStart newEnd newPath H. simpl. rewrite H.
    reflexivity.
  - intros id startTime endTime p s Hp Hw Hd.
    rewrite submitTrajectory_spec. destruct p as [| c cs]; [congruence |].
    apply N.ltb_lt in Hw. rewrite Hw. unfold isCollision.
    rewrite scanTrajectories_disjoint by assumption. reflexivity.
Qed.

(** Scenario D on a ledger that holds [remote]: the window [20,30) is
    disjoint from [0,10) and [10,20), so no distance is computed. *)
Lemma time_overlap_half_open_witness :
  (timeOverlap 5 10 (mkTrajectory 1 0 5 [origin]) = true <->
   (5 < 5 /\ 0 < 10)%N) /\
  submitTrajectory 3 20 30 [origin] two_cars =
  Ok (true,
      mkState (validatedTrajectories two_cars ++ [admitted 3 20 30 [origin]])
              (events two_cars ++ [outcome 3 true 20 30])).
Proof.
  split.
  - apply (proj1 time_overlap_half_open).
  - apply (proj2 (proj2 (proj2 time_overlap_half_open)));
      [discriminate | reflexivity | repeat constructor].
Defined.

(** ** Rejection *)

Lemma anyStride2_first_hit {A : Type} (f : A -> result bool) (l : list A) :
  forall i a,
    nth_error l (2 * i) = Some a ->
    f a = Ok true ->
    (forall i' a', i' < i -> nth_error l (2 * i') = Some a' ->
                   exists b, f a' = Ok b) ->
    anyStride2 f l = Ok true.
Proof.
  induction l as [| x | x y l IH] using list_ind2; intros i a Hi Ha Hbefore.
  - destruct i; discriminate.
  - destruct i as [| i].
    + injection Hi as ->. cbn [anyStride2]. rewrite Ha. reflexivity.
    + replace (2 * S i) with (S (S (2 * i))) in Hi by lia. discriminate.
  - cbn [anyStride2]. destruct i as [| i].
    + injection Hi as ->. rewrite Ha. reflexivity.
    + destruct (Hbefore 0 x ltac:(lia) eq_refl) as [[] ->]; cbn [bind];
        [reflexivity |].
      rewrite nth_error_stride in Hi. apply (IH i a Hi Ha).
      intros i' a' Hlt Hi'. apply (Hbefore (S i')); [lia |].
      now rewrite nth_error_stride.
Qed.

(** The two loops of the spatial check answer [true] at the first pair of
    sampled points that is close enough, provided the pairs measured before
    it, in the order of the loops, could be measured. *)
Lemma spatialCheck_first_close (p q : list Coordinate) (m n : nat)
    (a b : Coordinate) :
  nth_error p (2 * m) = Some a ->
  nth_error q (2 * n) = Some b ->
  (exists d, distance a b = Ok d /\ (d <= COLLISION_DISTANCE)%N) ->
  (forall m' n' a' b',
     m' < m \/ (m' = m /\ n' < n) ->
     nth_error p (2 * m') = Some a' ->
     nth_error q (2 * n') = Some b' ->
     exists d, distance a' b' = Ok d) ->
  spatialCheck p q = Ok true.
Proof.
  intros Ha Hb (d & Hd & Hle) Hbefore.
  rewrite spatialCheck_any.
  apply (@anyStride2_first_hit _ (fun x => scanExisting x q) p m a Ha).
  - rewrite scanExisting_any.
    apply (@anyStride2_first_hit _ (tooClose a) q n b Hb).
    + unfold tooClose. rewrite Hd. cbn [bind]. f_equal. now apply N.leb_le.
    + intros n' b' Hn Hb'.
      destruct (Hbefore m n' a b' (or_intror (conj eq_refl Hn)) Ha Hb')
        as [d' Hd'].
      unfold tooClose. rewrite Hd'. cbn [bind]. eauto.
  - intros m' a' Hm Ha'. rewrite scanExisting_any.
    destruct (@anyStride2_spec _ (tooClose a') q) as (r & Hr & _);
      [| eauto].
    intros j b' Hb'.
    destruct (Hbefore m' j a' b' (or_introl Hm) Ha' Hb') as [d' Hd'].
    unfold tooClose. rewrite Hd'. cbn [bind]. eauto.
Qed.

(** C4: when a stored trajectory overlaps the new window and a point at an
    even index of the new path is within [COLLISION_DISTANCE] of a point at
    an even index of its path, and no distance computed before that pair
    fails, the call returns [false].  That is: the trajectories stored before
    it are scanned without a collision and without an arithmetic failure,
    and each pair of sampled points of the new path and of its path that
    the two loops measure before the close pair (an earlier point of the new
    path with any sampled point of the stored path, or the same point of the
    new path with an earlier sampled point of the stored path) has a distance
    that returns.  The answer is the same whatever is stored after that
    trajectory, the ledger is unchanged (count, metadata and coordinates) and
    exactly one event, with [accepted = false] and the two slots, is added to
    the log. *)
Theorem submit_rejected_frame (id startTime endTime : N)
    (p : list Coordinate) (s : State)
    (pre suf : list Trajectory) (t : Trajectory)
    (m n : nat) (a b : Coordinate) :
  p <> [] ->
  (toSlot startTime < toSlot endTime)%N ->
  validatedTrajectories s = pre ++ t :: suf ->
  scanTrajectories pre (toSlot startTime) (toSlot endTime) p = Ok false ->
  timeOverlap (toSlot startTime) (toSlot endTime) t = true ->
  nth_error p (2 * m) = Some a ->
  nth_error (path t) (2 * n) = Some b ->
  (exists d, distance a b = Ok d /\ (d <= COLLISION_DISTANCE)%N) ->
  (forall m' n' a' b',
     m' < m \/ (m' = m /\ n' < n) ->
     nth_error p (2 * m') = Some a' ->
     nth_error (path t) (2 * n') = Some b' ->
     exists d, distance a' b' = Ok d) ->
  exists s',
    submitTrajectory id startTime endTime p s = Ok (false, s') /\
    transact s (SubmitTrajectory id startTime endTime p) =
      (s', Ok (RBool false)) /\
    validatedTrajectories s' = validatedTrajectories s /\
    count s' = count s /\
    (forall i, getTrajectoryMeta i s' = getTrajectoryMeta i s) /\
    (forall i j, getTrajectoryCoordinate i j s' =
                 getTrajectoryCoordinate i j s) /\
    events s' =
      events s ++ [mkEvent id false (startTime / TIME_SLOT)%N
                                    (endTime / TIME_SLOT)%N].
Proof.
  intros Hp Hw Hl Hpre Ht Ha Hb Hclose Hbefore.
  pose proof (@spatialCheck_first_close _ _ m n _ _ Ha Hb Hclose Hbefore)
    as Hs.
  pose proof (submitTrajectory_spec id startTime endTime p s) as E.
  destruct p as [| c cs]; [congruence |].
  apply N.ltb_lt in Hw. rewrite Hw in E. unfold isCollision in E.
  rewrite Hl, (@scanTrajectories_first_hit _ suf _ _ _ _ Hpre Ht Hs) in E.
  eexists. split; [exact E |].
  split; [rewrite transact_submit, E; reflexivity |].
  repeat split; reflexivity.
Qed.

Lemma submit_rejected_frame_witness :
  exists s',
    submitTrajectory 2 15 25 [origin] sampled_car = Ok (false, s') /\
    transact sampled_car (SubmitTrajectory 2 15 25 [origin]) =
      (s', Ok (RBool false)) /\
    validatedTrajectories s' = validatedTrajectories sampled_car /\
    count s' = count sampled_car /\
    (forall i, getTrajectoryMeta i s' = getTrajectoryMeta i sampled_car) /\
    (forall i j, getTrajectoryCoordinate i j s' =
                 getTrajectoryCoordinate i j sampled_car) /\
    events s' =
      events sampled_car ++ [mkEvent 2 false (15 / TIME_SLOT)%N
                                             (25 / TIME_SLOT)%N].
Proof.
  apply (@submit_rejected_frame 2 15 25 [origin] sampled_car
           [mkTrajectory 9 0 10 [remote]] []
           (mkTrajectory 1 10 20 [mkCoordinate 100 100; remote; origin])
           0 1 origin origin);
    try solve [discriminate | reflexivity].
  - exists 0%N. split; [reflexivity | discriminate].
  - intros m' n' a' b' [Hm | [-> Hn]] Ha Hb; [lia |].
    assert (n' = 0) as -> by lia.
    injection Ha as <-. injection Hb as <-.
    exists 141%N. reflexivity.
Defined.

(** The specification words C4 for every ledger, also one in which a point
    met before the collision cannot be measured.  In [two_cars] the second
    trajectory overlaps the window [5,15) and holds the very point submitted,
    yet the scan meets the first trajectory, the square of the difference
    leaves [int256], and the call aborts with nothing returned and nothing
    logged.  In [far_first] the only trajectory overlaps the window and its
    sampled point of index 2 is the point submitted, nothing is stored
    before it, yet its point of index 0 is measured first, and the call
    aborts in the same way. *)
Lemma rejection_preempted_by_overflow :
  validatedTrajectories two_cars =
    [mkTrajectory 9 0 10 [remote]; mkTrajectory 1 10 20 [origin]] /\
  (exists t, In t (validatedTrajectories two_cars) /\
             timeOverlap (toSlot 5) (toSlot 15) t = true /\
             spatialCheck [origin] (path t) = Ok true) /\
  submitTrajectory 2 5 15 [origin] two_cars = Panic ARITHMETIC /\
  transact two_cars (SubmitTrajectory 2 5 15 [origin]) =
    (two_cars, Panic ARITHMETIC) /\
  ~ (exists s', submitTrajectory 2 5 15 [origin] two_cars = Ok (false, s')) /\
  validatedTrajectories far_first =
    [mkTrajectory 9 0 10 [remote; origin; origin]] /\
  timeOverlap (toSlot 5) (toSlot 15)
    (mkTrajectory 9 0 10 [remote; origin; origin]) = true /\
  nth_error [origin] (2 * 0) = Some origin /\
  nth_error [remote; origin; origin] (2 * 1) = Some origin /\
  distance origin origin = Ok 0%N /\
  distance origin remote = Panic ARITHMETIC /\
  submitTrajectory 2 5 15 [origin] far_first = Panic ARITHMETIC /\
  transact far_first (SubmitTrajectory 2 5 15 [origin]) =
    (far_first, Panic ARITHMETIC) /\
  ~ (exists s', submitTrajectory 2 5 15 [origin] far_first = Ok (false, s')).
Proof.
  split; [reflexivity |].
  split.
  { exists (mkTrajectory 1 10 20 [origin]).
    split; [right; left; reflexivity |]. split; reflexivity. }
  split; [reflexivity |].
  split; [reflexivity |].
  split; [intros [s' H]; discriminate H |].
  do 8 (split; [reflexivity |]).
  intros [s' H]. discriminate H.
Qed.

(** ** Validation *)

(** C5: the call fails with "Empty path" exactly when the path is empty, and
    with "Invalid time window" exactly when the path is non-empty and the end
    slot is not after the start slot; in both cases the answer is the same on
    every ledger, and the state, event log included, is left as it was. *)
Theorem submit_validation (id startTime endTime : N)
    (p : list Coordinate) (s : State) :
  (submitTrajectory id startTime endTime p s = Revert "Empty path" <->
   p = []) /\
  (submitTrajectory id startTime endTime p s = Revert "Invalid time window" <->
   p <> [] /\ (toSlot endTime <= toSlot startTime)%N) /\
  (p = [] \/ (toSlot endTime <= toSlot startTime)%N ->
   forall s', submitTrajectory id startTime endTime p s' =
              submitTrajectory id startTime endTime p s) /\
  (forall m, submitTrajectory id startTime endTime p s = Revert m ->
             transact s (SubmitTrajectory id startTime endTime p) =
             (s, Revert m)).
Proof.
  pose proof (@scanTrajectories_no_revert (validatedTrajectories s)
                (toSlot startTime) (toSlot endTime) p) as Hnr.
  rewrite submitTrajectory_spec. unfold isCollision.
  split; [split | split; [split | split]].
  - destruct p as [| c cs]; [reflexivity |].
    destruct (toSlot startTime <? toSlot endTime)%N; [| discriminate].
    destruct (scanTrajectories _ _ _ _) as [[] | m |]; try discriminate.
    intros [= ->]. now destruct (Hnr "Empty path"%string).
  - intros ->. reflexivity.
  - destruct p as [| c cs]; [discriminate |].
    destruct (N.ltb_spec (toSlot startTime) (toSlot endTime)) as [Hlt | Hge].
    + destruct (scanTrajectories _ _ _ _) as [[] | m |]; try discriminate.
      intros [= ->]. now destruct (Hnr "Invalid time window"%string).
    + intros _. split; [discriminate | assumption].
  - intros [Hp Hw]. destruct p as [| c cs]; [congruence |].
    destruct (N.ltb_spec (toSlot startTime) (toSlot endTime)); [lia |].
    reflexivity.
  - intros H s'. rewrite submitTrajectory_spec.
    destruct p as [| c cs]; [reflexivity |].
    destruct H as [H | H]; [discriminate |].
    destruct (N.ltb_spec (toSlot startTime) (toSlot endTime)); [lia |].
    reflexivity.
  - intros m H. rewrite transact_submit, submitTrajectory_spec.
    unfold isCollision. rewrite H. reflexivity.
Qed.

Lemma submit_validation_witness :
  (forall s', submitTrajectory 1 10 10 [origin] s' =
              submitTrajectory 1 10 10 [origin] two_cars) /\
  transact two_cars (SubmitTrajectory 1 10 10 [origin]) =
    (two_cars, Revert "Invalid time window").
Proof.
  pose proof (submit_validation 1 10 10 [origin] two_cars)
    as (_ & _ & Hany & Hsame).
  split.
  - apply Hany. right. vm_compute. discriminate.
  - apply Hsame. reflexivity.
Defined.

(** C5 is worded without regard to the order of the two checks.  An empty
    path together with a window that is not valid: the first
    [require] answers, so the window error is not the one reported. *)
Lemma invalid_window_masked_by_empty_path :
  (toSlot 3 <= toSlot 7)%N /\
  submitTrajectory 1 7 3 [] genesis = Revert "Empty path" /\
  submitTrajectory 1 7 3 [] genesis <> Revert "Invalid time window".
Proof.
  split; [vm_compute; discriminate |].
  split; [reflexivity | discriminate].
Qed.

(** ** The sampled spatial check *)

Lemma anyStride2_ext {A : Type} (f g : A -> result bool) (l : list A) :
  (forall a, f a = g a) -> anyStride2 f l = anyStride2 g l.
Proof.
  intros H. induction l as [| a | a a' l IH] using list_ind2; simpl;
    rewrite ?H, ?IH; reflexivity.
Qed.

(** After an even number of elements without a hit, one more element is
    visited and decides. *)
Lemma anyStride2_last {A : Type} (f : A -> result bool) (l : list A) (a : A) :
  Nat.Even (length l) -> anyStride2 f l = Ok false ->
  anyStride2 f (l ++ [a]) = f a.
Proof.
  induction l as [| x | x y l IH] using list_ind2; intros Heven.
  - intros _. simpl. destruct (f a) as [[] | |]; reflexivity.
  - destruct Heven as [k Hk]. simpl in Hk. lia.
  - change ((x :: y :: l) ++ [a]) with (x :: y :: (l ++ [a])).
    cbn [anyStride2]. destruct (f x) as [[] | |]; cbn [bind];
      try discriminate.
    apply IH. destruct Heven as [k Hk]. simpl in Hk. exists (k - 1). lia.
Qed.

Lemma tooClose_true (p q : Coordinate) :
  tooClose p q = Ok true <->
  exists d, distance p q = Ok d /\ (d <= COLLISION_DISTANCE)%N.
Proof.
  unfold tooClose. split.
  - destruct (distance p q) as [d | |]; simpl; try discriminate.
    intros [= H]. exists d. split; [reflexivity | now apply N.leb_le].
  - intros (d & -> & H). simpl. f_equal. now apply N.leb_le.
Qed.

Lemma expected_range_distance (p q : Coordinate) :
  expected_range p -> expected_range q -> exists d, distance p q = Ok d.
Proof.
  intros Hp Hq. rewrite distance_spec.
  pose proof (squares_expected_range Hp Hq) as [_ H].
  destruct (Z.leb_spec (squares p q) Int.max) as [_ | Hgt]; [eauto |].
  exfalso. revert H Hgt. generalize (squares p q). intros z.
  change (2 * (360 * 10 ^ 6) * (360 * 10 ^ 6))%Z with 259200000000000000%Z.
  unfold Int.max.
  change (2 ^ 255 - 1)%Z
    with 57896044618658097711785492504343953926634992332820282019728792003956564819967%Z.
  lia.
Qed.

(** C3: when the distance of every sampled pair can be computed, the spatial
    check answers, and it declares a collision exactly when two points at
    even indices of the two paths are at most [COLLISION_DISTANCE] apart.
    The last point of a path of even length is skipped, on either side; the
    last point of a path of odd length is compared like the other sampled
    ones; a path of one point is compared against every sampled point of the
    stored path.  In every case a collision that is declared comes from two
    such points. *)
Theorem spatial_check_sampled (newPath existingPath : list Coordinate) :
  ((forall i j p q,
      nth_error newPath (2 * i) = Some p ->
      nth_error existingPath (2 * j) = Some q ->
      exists d, distance p q = Ok d) ->
   exists b,
     spatialCheck newPath existingPath = Ok b /\
     (b = true <->
      exists i j p q d,
        nth_error newPath (2 * i) = Some p /\
        nth_error existingPath (2 * j) = Some q /\
        distance p q = Ok d /\ (d <= COLLISION_DISTANCE)%N)) /\
  (forall p, Nat.Odd (length newPath) ->
     spatialCheck (newPath ++ [p]) existingPath =
     spatialCheck newPath existingPath) /\
  (forall q, Nat.Odd (length existingPath) ->
     spatialCheck newPath (existingPath ++ [q]) =
     spatialCheck newPath existingPath) /\
  (forall p, Nat.Even (length newPath) ->
     spatialCheck newPath existingPath = Ok false ->
     spatialCheck (newPath ++ [p]) existingPath =
     scanExisting p existingPath) /\
  (forall p, spatialCheck [p] existingPath = scanExisting p existingPath) /\
  (spatialCheck newPath existingPath = Ok true ->
   exists i j p q d,
     nth_error newPath (2 * i) = Some p /\
     nth_error existingPath (2 * j) = Some q /\
     distance p q = Ok d /\ (d <= COLLISION_DISTANCE)%N).
Proof.
  split; [| split; [| split; [| split; [| split]]]].
  - intros Hd.
    assert (Hin : forall i p, nth_error newPath (2 * i) = Some p ->
              exists b, scanExisting p existingPath = Ok b /\
                (b = true <->
                 exists j q, nth_error existingPath (2 * j) = Some q /\
                             tooClose p q = Ok true)).
    { intros i p Hp. rewrite scanExisting_any. apply anyStride2_spec.
      intros j q Hq. destruct (Hd i j p q Hp Hq) as [d Hdist].
      unfold tooClose. rewrite Hdist. simpl. eauto. }
    rewrite spatialCheck_any.
    destruct (@anyStride2_spec _ (fun p => scanExisting p existingPath)
                newPath) as (b & Hb & Hiff).
    { intros i p Hp. destruct (Hin i p Hp) as (b & Hb & _). eauto. }
    exists b. split; [assumption |]. rewrite Hiff. split.
    + intros (i & p & Hp & Hscan).
      destruct (Hin i p Hp) as (b' & Hb' & Hiff').
      assert (b' = true) as -> by congruence.
      destruct (proj1 Hiff' eq_refl) as (j & q & Hq & Hclose).
      apply tooClose_true in Hclose. destruct Hclose as (d & Hdist & Hle).
      exists i, j, p, q, d. auto.
    + intros (i & j & p & q & d & Hp & Hq & Hdist & Hle).
      exists i, p. split; [assumption |].
      destruct (Hin i p Hp) as (b' & Hb' & Hiff').
      rewrite Hb'. f_equal. apply Hiff'. exists j, q.
      split; [assumption |]. apply tooClose_true. eauto.
  - intros p Hodd. rewrite !spatialCheck_any.
    now apply anyStride2_skip_last.
  - intros q Hodd. rewrite !spatialCheck_any. apply anyStride2_ext.
    intros p. rewrite !scanExisting_any. now apply anyStride2_skip_last.
  - intros p Heven. rewrite !spatialCheck_any.
    now apply (@anyStride2_last _ (fun p => scanExisting p existingPath)).
  - intros p. simpl.
    destruct (scanExisting p existingPath) as [[] | |]; reflexivity.
  - rewrite spatialCheck_any. intros H.
    apply anyStride2_true in H. destruct H as (i & p & Hp & H).
    rewrite scanExisting_any in H.
    apply anyStride2_true in H. destruct H as (j & q & Hq & H).
    apply tooClose_true in H. destruct H as (d & Hd & Hle).
    exists i, j, p, q, d. auto.
Qed.

Lemma spatial_check_sampled_witness :
  (exists b,
     spatialCheck [mkCoordinate 100 100; mkCoordinate 3 4; mkCoordinate 7 0]
                  [origin; mkCoordinate 50 50] = Ok b /\
     (b = true <->
      exists i j p q d,
        nth_error [mkCoordinate 100 100; mkCoordinate 3 4; mkCoordinate 7 0]
                  (2 * i) = Some p /\
        nth_error [origin; mkCoordinate 50 50] (2 * j) = Some q /\
        distance p q = Ok d /\ (d <= COLLISION_DISTANCE)%N)) /\
  spatialCheck ([mkCoordinate 100 100] ++ [origin]) [origin] =
  spatialCheck [mkCoordinate 100 100] [origin].
Proof.
  split.
  - apply (proj1 (spatial_check_sampled
             [mkCoordinate 100 100; mkCoordinate 3 4; mkCoordinate 7 0]
             [origin; mkCoordinate 50 50])).
    intros i j p q Hp Hq. apply expected_range_distance.
    + apply nth_error_In in Hp. simpl in Hp.
      destruct Hp as [<- | [<- | [<- | []]]]; split; vm_compute; discriminate.
    + apply nth_error_In in Hq. simpl in Hq.
      destruct Hq as [<- | [<- | []]]; split; vm_compute; discriminate.
  - apply (proj1 (proj2 (spatial_check_sampled [mkCoordinate 100 100]
                           [origin]))).
    exists 0. reflexivity.
Defined.

(** The specification words C3 with the last point of a path of odd length
    skipped.  Here the path has three points and only the third is close to
    the stored one: the check finds it, and does not without it.  C3 is also
    worded for every pair of paths, yet a sampled point too far for [int256]
    aborts the check before the close pair behind it is looked at. *)
Lemma odd_path_final_point_sampled :
  Nat.Odd (length [mkCoordinate 100 100; mkCoordinate 200 200; origin]) /\
  spatialCheck [mkCoordinate 100 100; mkCoordinate 200 200; origin] [origin]
    = Ok true /\
  spatialCheck [mkCoordinate 100 100; mkCoordinate 200 200] [origin]
    = Ok false /\
  spatialCheck [remote; origin; origin] [origin] = Panic ARITHMETIC /\
  distance origin origin = Ok 0%N.
Proof.
  split; [exists 1; reflexivity |].
  repeat split; vm_compute; reflexivity.
Qed.

(** ** Distance and square root *)

Lemma Sorted_gt_strong (l : list N) :
  Sorted (fun a b => (b < a)%N) l -> StronglySorted (fun a b => (b < a)%N) l.
Proof.
  apply Sorted_StronglySorted. intros a b c Hab Hbc. lia.
Qed.

(** C6: whenever [dx * dx + dy * dy] fits [int256], [distance] returns the
    floor of its square root; for every [x] below the largest [uint256],
    [sqrt] returns the floor of the square root of [x], the values taken by
    [y] on the way starting at [x], strictly decreasing and ending at the
    result. *)
Theorem distance_floor_sqrt :
  (forall a b,
     (squares a b <= Int.max)%Z ->
     exists d,
       distance a b = Ok d /\
       d = Z.to_N (Z.sqrt (squares a b)) /\
       (Z.of_N d * Z.of_N d <= squares a b <
        (Z.of_N d + 1) * (Z.of_N d + 1))%Z) /\
  (forall x,
     (x < Uint.max)%N ->
     sqrt x = Ok (N.sqrt x) /\
     (N.sqrt x * N.sqrt x <= x < (N.sqrt x + 1) * (N.sqrt x + 1))%N /\
     hd 0%N (sqrt_trace x) = x /\
     StronglySorted (fun y y' => (y' < y)%N) (sqrt_trace x) /\
     last (sqrt_trace x) 0%N = N.sqrt x).
Proof.
  split.
  - intros a b H. exists (Z.to_N (Z.sqrt (squares a b))).
    rewrite distance_spec.
    destruct (Z.leb_spec (squares a b) Int.max); [| lia].
    split; [reflexivity |]. split; [reflexivity |].
    assert (Hpos : (0 <= squares a b)%Z)
      by (apply Z.add_nonneg_nonneg; apply Z.square_nonneg).
    pose proof (Z.sqrt_spec _ Hpos) as Hs. cbv zeta in Hs.
    pose proof (Z.sqrt_nonneg (squares a b)).
    rewrite Z2N.id by assumption.
    rewrite <- !Z.add_1_r in Hs. exact Hs.
  - intros x Hx. pose proof (sqrt_correct Hx) as Hsqrt.
    split; [assumption |].
    split.
    { pose proof (N.sqrt_spec x (N.le_0_l x)) as Hs. cbv zeta in Hs.
      rewrite <- !N.add_1_r in Hs. exact Hs. }
    unfold sqrt_trace. unfold sqrt in Hsqrt.
    destruct (N.eqb_spec x 0) as [-> | Hnz].
    { repeat split; repeat constructor. }
    destruct (do s <- Uint.add x 1 ; Uint.div s 2) as [z | |];
      simpl in Hsqrt; try discriminate.
    split; [| split].
    + destruct (sqrt_iterates_head x x z) as [l ->]. reflexivity.
    + apply Sorted_gt_strong, sqrt_iterates_decreasing.
    + now apply sqrt_iterates_last.
Qed.

Lemma distance_floor_sqrt_witness :
  (exists d,
     distance (mkCoordinate 40000000 (-74000000))
              (mkCoordinate 40001000 (-74001000)) = Ok d /\
     d = Z.to_N (Z.sqrt (squares (mkCoordinate 40000000 (-74000000))
                                 (mkCoordinate 40001000 (-74001000)))) /\
     (Z.of_N d * Z.of_N d <=
      squares (mkCoordinate 40000000 (-74000000))
              (mkCoordinate 40001000 (-74001000)) <
      (Z.of_N d + 1) * (Z.of_N d + 1))%Z) /\
  sqrt 2000000 = Ok (N.sqrt 2000000).
Proof.
  split.
  - apply (proj1 distance_floor_sqrt). vm_compute. discriminate.
  - apply (proj2 distance_floor_sqrt). reflexivity.
Defined.

(** The specification words C6 for every pair of coordinates and for every
    unsigned input.  [remote] is an [int256] value, yet the square of its
    difference to [origin] is [2 ^ 256] and the checked product aborts; and
    at the largest [uint256] the first statement of [sqrt], [x + 1],
    overflows. *)
Lemma distance_overflows :
  Int.in_range (latitude remote) = true /\
  squares origin remote = (2 ^ 256)%Z /\
  distance origin remote = Panic ARITHMETIC /\
  (forall d, distance origin remote <> Ok d) /\
  sqrt Uint.max = Panic ARITHMETIC.
Proof.
  split; [reflexivity |]. split; [reflexivity |].
  split; [reflexivity |]. split; [discriminate | reflexivity].
Qed.

(** C8: for coordinates in the expected range none of the checked operations
    of [distance] fails, the cast of the sum to [uint256] keeps its value,
    and [distance] returns. *)
Theorem expected_range_no_overflow (a b : Coordinate) :
  expected_range a -> expected_range b ->
  let dx := (latitude a - latitude b)%Z in
  let dy := (longitude a - longitude b)%Z in
  Int.sub (latitude a) (latitude b) = Ok dx /\
  Int.sub (longitude a) (longitude b) = Ok dy /\
  Int.mul dx dx = Ok (dx * dx)%Z /\
  Int.mul dy dy = Ok (dy * dy)%Z /\
  Int.add (dx * dx) (dy * dy) = Ok (dx * dx + dy * dy)%Z /\
  (0 <= dx * dx + dy * dy <= Int.max)%Z /\
  Z.of_N (Int.to_uint (dx * dx + dy * dy)) = (dx * dx + dy * dy)%Z /\
  distance a b = Ok (Z.to_N (Z.sqrt (dx * dx + dy * dy))).
Proof.
  intros Ha Hb dx dy.
  pose proof (squares_expected_range Ha Hb) as Hsq. unfold squares in Hsq.
  fold dx dy in Hsq.
  destruct Ha as [Ha1 Ha2], Hb as [Hb1 Hb2].
  assert (Hmin : Int.min = (- Int.max - 1)%Z) by reflexivity.
  assert (Hmax :
    Int.max =
    57896044618658097711785492504343953926634992332820282019728792003956564819967%Z)
    by reflexivity.
  change (2 * (360 * 10 ^ 6) * (360 * 10 ^ 6))%Z
    with 259200000000000000%Z in Hsq.
  change (180 * 10 ^ 6)%Z with 180000000%Z in *.
  assert (0 <= dx * dx)%Z by nia. assert (0 <= dy * dy)%Z by nia.
  unfold Int.sub, Int.mul, Int.add. fold dx dy.
  repeat split; try (apply checked_in; lia); try lia.
  - apply to_uint_exact. lia.
  - rewrite distance_spec. unfold squares. fold dx dy.
    destruct (Z.leb_spec (dx * dx + dy * dy) Int.max); [reflexivity | lia].
Qed.

Lemma expected_range_no_overflow_witness :
  let a := mkCoordinate 180000000 (-180000000) in
  let b := mkCoordinate (-180000000) 180000000 in
  let dx := (latitude a - latitude b)%Z in
  let dy := (longitude a - longitude b)%Z in
  Int.sub (latitude a) (latitude b) = Ok dx /\
  Int.sub (longitude a) (longitude b) = Ok dy /\
  Int.mul dx dx = Ok (dx * dx)%Z /\
  Int.mul dy dy = Ok (dy * dy)%Z /\
  Int.add (dx * dx) (dy * dy) = Ok (dx * dx + dy * dy)%Z /\
  (0 <= dx * dx + dy * dy <= Int.max)%Z /\
  Z.of_N (Int.to_uint (dx * dx + dy * dy)) = (dx * dx + dy * dy)%Z /\
  distance a b = Ok (Z.to_N (Z.sqrt (dx * dx + dy * dy))).
Proof.
  apply expected_range_no_overflow; split; vm_compute; discriminate.
Defined.

(** ** Reading the ledger *)

Lemma at_index_Some {A : Type} (a : list A) (index : N) (v : A) :
  nth_error a (N.to_nat index) = Some v -> at_index a index = Ok v.
Proof. unfold at_index. intros ->. reflexivity. Qed.

Lemma in_bounds {A : Type} (a : list A) (index : N) :
  (index < N.of_nat (length a))%N ->
  exists v, nth_error a (N.to_nat index) = Some v.
Proof.
  intros H. destruct (nth_error a (N.to_nat index)) eqn:E; [eauto |].
  apply nth_error_None in E. lia.
Qed.

Lemma getTrajectoryMeta_spec (index : N) (s : State) :
  getTrajectoryMeta index s =
  match nth_error (validatedTrajectories s) (N.to_nat index) with
  | Some t =>
      Ok (carId t, startSlot t, endSlot t, N.of_nat (length (path t)))
  | None => Revert "Index out of bounds"
  end.
Proof.
  unfold getTrajectoryMeta.
  destruct (N.ltb_spec index (N.of_nat (length (validatedTrajectories s))))
    as [Hlt | Hge]; cbn [require bind].
  - destruct (in_bounds _ Hlt) as [t Ht]. rewrite Ht, (at_index_Some _ _ Ht).
    reflexivity.
  - replace (nth_error (validatedTrajectories s) (N.to_nat index))
      with (@None Trajectory); [reflexivity |].
    symmetry. apply nth_error_None. lia.
Qed.

Lemma getTrajectoryCoordinate_spec (trajIndex coordIndex : N) (s : State) :
  getTrajectoryCoordinate trajIndex coordIndex s =
  match nth_error (validatedTrajectories s) (N.to_nat trajIndex) with
  | Some t =>
      match nth_error (path t) (N.to_nat coordIndex) with
      | Some c => Ok (latitude c, longitude c)
      | None => Revert "Invalid coordinate"
      end
  | None => Revert "Invalid trajectory"
  end.
Proof.
  unfold getTrajectoryCoordinate.
  destruct (N.ltb_spec trajIndex
              (N.of_nat (length (validatedTrajectories s))))
    as [Hlt | Hge]; cbn [require bind].
  - destruct (in_bounds _ Hlt) as [t Ht]. rewrite Ht, (at_index_Some _ _ Ht).
    cbn [bind].
    destruct (N.ltb_spec coordIndex (N.of_nat (length (path t))))
      as [Hlt' | Hge']; cbn [require bind].
    + destruct (in_bounds _ Hlt') as [c Hc].
      rewrite Hc, (at_index_Some _ _ Hc). reflexivity.
    + replace (nth_error (path t) (N.to_nat coordIndex))
        with (@None Coordinate); [reflexivity |].
      symmetry. apply nth_error_None. lia.
  - replace (nth_error (validatedTrajectories s) (N.to_nat trajIndex))
      with (@None Trajectory); [reflexivity |].
    symmetry. apply nth_error_None. lia.
Qed.

(** C9: [getTrajectoryMeta] fails with "Index out of bounds" exactly when the
    index is not below the count; [getTrajectoryCoordinate] fails with
    "Invalid trajectory" exactly when the trajectory index is not below the
    count, and with "Invalid coordinate" exactly when that index is in range
    and the coordinate index is not below the length of that path; otherwise
    both return what is stored; and no read changes the state. *)
Theorem view_lookups (s : State) :
  getTrajectoryCount s = Ok (N.of_nat (count s)) /\
  (forall index,
     getTrajectoryMeta index s = Revert "Index out of bounds" <->
     (N.of_nat (count s) <= index)%N) /\
  (forall index,
     (index < N.of_nat (count s))%N ->
     exists t,
       nth_error (validatedTrajectories s) (N.to_nat index) = Some t /\
       getTrajectoryMeta index s =
       Ok (carId t, startSlot t, endSlot t, N.of_nat (length (path t)))) /\
  (forall trajIndex coordIndex,
     getTrajectoryCoordinate trajIndex coordIndex s =
       Revert "Invalid trajectory" <->
     (N.of_nat (count s) <= trajIndex)%N) /\
  (forall trajIndex coordIndex,
     getTrajectoryCoordinate trajIndex coordIndex s =
       Revert "Invalid coordinate" <->
     (trajIndex < N.of_nat (count s))%N /\
     exists t,
       nth_error (validatedTrajectories s) (N.to_nat trajIndex) = Some t /\
       (N.of_nat (length (path t)) <= coordIndex)%N) /\
  (forall trajIndex coordIndex t,
     nth_error (validatedTrajectories s) (N.to_nat trajIndex) = Some t ->
     (coordIndex < N.of_nat (length (path t)))%N ->
     exists c,
       nth_error (path t) (N.to_nat coordIndex) = Some c /\
       getTrajectoryCoordinate trajIndex coordIndex s =
       Ok (latitude c, longitude c)) /\
  fst (transact s GetTrajectoryCount) = s /\
  (forall index, fst (transact s (GetTrajectoryMeta index)) = s) /\
  (forall trajIndex coordIndex,
     fst (transact s (GetTrajectoryCoordinate trajIndex coordIndex)) = s).
Proof.
  unfold count.
  split; [reflexivity |].
  split; [| split; [| split; [| split; [| split; [| split; [| split]]]]]].
  - intros index. rewrite getTrajectoryMeta_spec.
    destruct (nth_error _ _) as [t |] eqn:E.
    + split; [discriminate |]. intros H.
      assert (nth_error (validatedTrajectories s) (N.to_nat index) <> None)
        as Hn by congruence.
      apply nth_error_Some in Hn. lia.
    + apply nth_error_None in E. split; [lia | reflexivity].
  - intros index H. destruct (in_bounds _ H) as [t Ht]. exists t.
    split; [assumption |]. rewrite getTrajectoryMeta_spec, Ht. reflexivity.
  - intros trajIndex coordIndex. rewrite getTrajectoryCoordinate_spec.
    destruct (nth_error _ _) as [t |] eqn:E.
    + assert (nth_error (validatedTrajectories s) (N.to_nat trajIndex)
              <> None) as Hn by congruence.
      apply nth_error_Some in Hn.
      destruct (nth_error (path t) _); split; try discriminate; lia.
    + apply nth_error_None in E. split; [lia | reflexivity].
  - intros trajIndex coordIndex. rewrite getTrajectoryCoordinate_spec.
    destruct (nth_error _ _) as [t |] eqn:E.
    + assert (nth_error (validatedTrajectories s) (N.to_nat trajIndex)
              <> None) as Hn by congruence.
      apply nth_error_Some in Hn.
      destruct (nth_error (path t) (N.to_nat coordIndex)) as [c |] eqn:Ec.
      * split; [discriminate |]. intros (_ & t' & [= <-] & Hle).
        assert (nth_error (path t) (N.to_nat coordIndex) <> None)
          as Hc by congruence.
        apply nth_error_Some in Hc. lia.
      * apply nth_error_None in Ec. split; [| reflexivity].
        intros _. split; [lia |]. exists t. split; [reflexivity | lia].
    + split; [discriminate |]. intros (_ & t' & Ht' & _). discriminate.
  - intros trajIndex coordIndex t Ht Hlt.
    destruct (in_bounds _ Hlt) as [c Hc]. exists c.
    split; [assumption |].
    rewrite getTrajectoryCoordinate_spec, Ht, Hc. reflexivity.
  - reflexivity.
  - intros index. unfold transact, execute.
    destruct (getTrajectoryMeta index s); reflexivity.
  - intros trajIndex coordIndex. unfold transact, execute.
    destruct (getTrajectoryCoordinate trajIndex coordIndex s); reflexivity.
Qed.

Lemma view_lookups_witness :
  (exists t,
     nth_error (validatedTrajectories two_cars) (N.to_nat 1) = Some t /\
     getTrajectoryMeta 1 two_cars =
     Ok (carId t, startSlot t, endSlot t, N.of_nat (length (path t)))) /\
  (exists c,
     nth_error (path (mkTrajectory 9 0 10 [remote])) (N.to_nat 0) = Some c /\
     getTrajectoryCoordinate 0 0 two_cars = Ok (latitude c, longitude c)).
Proof.
  pose proof (view_lookups two_cars) as (_ & _ & Hmeta & _ & _ & Hcoord & _).
  split.
  - apply Hmeta. reflexivity.
  - apply Hcoord; reflexivity.
Defined.

(** ** The ledger over time *)

(** One call either appends one well-formed trajectory and reports
    acceptance, or leaves the stored trajectories as they were. *)
Lemma transact_cases (s : State) (c : call) :
  (is_accepted (snd (transact s c)) = true /\
   exists t, well_formed t /\
             validatedTrajectories (fst (transact s c)) =
             validatedTrajectories s ++ [t]) \/
  (is_accepted (snd (transact s c)) = false /\
   validatedTrajectories (fst (transact s c)) = validatedTrajectories s).
Proof.
  destruct c as [id startTime endTime p | | index | trajIndex coordIndex].
  - rewrite transact_submit, submitTrajectory_spec.
    destruct p as [| c cs]; [right; split; reflexivity |].
    destruct (N.ltb_spec (toSlot startTime) (toSlot endTime)) as [Hw | Hw];
      [| right; split; reflexivity].
    destruct (isCollision _ _ _ _) as [[] | |];
      try (right; split; reflexivity).
    left. split; [reflexivity |].
    exists (admitted id startTime endTime (c :: cs)).
    split; [| reflexivity]. split; [exact Hw | discriminate].
  - right. split; reflexivity.
  - right. unfold transact, execute.
    destruct (getTrajectoryMeta index s); split; reflexivity.
  - right. unfold transact, execute.
    destruct (getTrajectoryCoordinate trajIndex coordIndex s);
      split; reflexivity.
Qed.

Lemma run_cons (s : State) (c : call) (calls : list call) :
  run s (c :: calls) = run (fst (transact s c)) calls.
Proof. reflexivity. Qed.

Lemma accepted_cons (s : State) (c : call) (calls : list call) :
  accepted s (c :: calls) =
  (if is_accepted (snd (transact s c)) then 1 else 0) +
  accepted (fst (transact s c)) calls.
Proof. simpl. destruct (transact s c). reflexivity. Qed.

Lemma run_invariant (calls : list call) :
  forall s,
    Forall well_formed (validatedTrajectories s) ->
    Forall well_formed (validatedTrajectories (run s calls)) /\
    count (run s calls) = count s + accepted s calls /\
    exists suffix,
      validatedTrajectories (run s calls) = validatedTrajectories s ++ suffix.
Proof.
  induction calls as [| c calls IH]; intros s Hwf.
  - split; [assumption |]. split; [simpl; lia |].
    exists []. now rewrite app_nil_r.
  - rewrite run_cons, accepted_cons.
    destruct (transact_cases s c) as [(Hacc & t & Ht & Hl) | (Hacc & Hl)];
      rewrite Hacc.
    + destruct (IH (fst (transact s c))) as (Hwf' & Hcount & suffix & Hsuf).
      { rewrite Hl. apply Forall_app. split; [assumption |].
        constructor; [assumption | constructor]. }
      split; [assumption |].
      split.
      * rewrite Hcount. unfold count. rewrite Hl, length_app. simpl. lia.
      * exists (t :: suffix). rewrite Hsuf, Hl, <- app_assoc. reflexivity.
    + destruct (IH (fst (transact s c))) as (Hwf' & Hcount & suffix & Hsuf).
      { rewrite Hl. assumption. }
      split; [assumption |].
      split.
      * rewrite Hcount. unfold count. rewrite Hl. lia.
      * exists suffix. rewrite Hsuf, Hl. reflexivity.
Qed.

Lemma run_app (s : State) (calls more : list call) :
  run s (calls ++ more) = run (run s calls) more.
Proof. unfold run. apply fold_left_app. Qed.

(** C7: after any sequence of calls every stored trajectory has
    [endSlot > startSlot] and a non-empty path; the count is the number of
    submissions that returned [true]; and after any further calls the count
    has not decreased and the metadata and the coordinates at every index
    below the earlier count read as before. *)
Theorem ledger_append_only (calls : list call) :
  Forall well_formed (validatedTrajectories (run genesis calls)) /\
  count (run genesis calls) = accepted genesis calls /\
  forall more,
    run genesis (calls ++ more) = run (run genesis calls) more /\
    count (run genesis calls) <= count (run genesis (calls ++ more)) /\
    firstn (count (run genesis calls))
           (validatedTrajectories (run genesis (calls ++ more))) =
      validatedTrajectories (run genesis calls) /\
    forall i,
      (i < N.of_nat (count (run genesis calls)))%N ->
      getTrajectoryMeta i (run genesis (calls ++ more)) =
        getTrajectoryMeta i (run genesis calls) /\
      forall j,
        getTrajectoryCoordinate i j (run genesis (calls ++ more)) =
        getTrajectoryCoordinate i j (run genesis calls).
Proof.
  destruct (@run_invariant calls genesis) as (Hwf & Hcount & _);
    [constructor |].
  split; [assumption |]. split; [exact Hcount |].
  intros more. rewrite run_app. set (s := run genesis calls) in *.
  destruct (@run_invariant more s Hwf) as (_ & Hcount' & suffix & Hsuf).
  split; [reflexivity |]. split; [lia |].
  split.
  - rewrite Hsuf. unfold count. rewrite firstn_app, Nat.sub_diag, firstn_all.
    simpl. apply app_nil_r.
  - intros i Hi.
    assert (Hnth : nth_error (validatedTrajectories (run s more)) (N.to_nat i)
                   = nth_error (validatedTrajectories s) (N.to_nat i)).
    { rewrite Hsuf. apply nth_error_app1. unfold count in Hi. lia. }
    split.
    + rewrite !getTrajectoryMeta_spec, Hnth. reflexivity.
    + intros j. rewrite !getTrajectoryCoordinate_spec, Hnth. reflexivity.
Qed.

Lemma ledger_append_only_witness :
  getTrajectoryMeta 0
    (run genesis ([SubmitTrajectory 9 0 10 [remote];
                   SubmitTrajectory 1 10 20 [origin]] ++
                  [SubmitTrajectory 2 15 25 [origin];
                   SubmitTrajectory 3 20 30 [origin]])) =
  getTrajectoryMeta 0
    (run genesis [SubmitTrajectory 9 0 10 [remote];
                  SubmitTrajectory 1 10 20 [origin]]) /\
  forall j,
    getTrajectoryCoordinate 0 j
      (run genesis ([SubmitTrajectory 9 0 10 [remote];
                     SubmitTrajectory 1 10 20 [origin]] ++
                    [SubmitTrajectory 2 15 25 [origin];
                     SubmitTrajectory 3 20 30 [origin]])) =
    getTrajectoryCoordinate 0 j
      (run genesis [SubmitTrajectory 9 0 10 [remote];
                    SubmitTrajectory 1 10 20 [origin]]).
Proof.
  apply (proj2 (proj2 (ledger_append_only
           [SubmitTrajectory 9 0 10 [remote];
            SubmitTrajectory 1 10 20 [origin]]))
           [SubmitTrajectory 2 15 25 [origin];
            SubmitTrajectory 3 20 30 [origin]]).
  reflexivity.
Defined.

(** ** Scenarios

    Scenarios A, B and D of the specification, on coordinates scaled by
    [1e6]: an admission on the empty ledger, a rejection by a point five
    units from a sampled one, and an admission of the same path on a later
    window. *)
Lemma scenarios_A_B_D :
  let a := SubmitTrajectory 1 0 10
             [mkCoordinate 40000000 (-74000000);
              mkCoordinate 40001000 (-74001000)] in
  let b := SubmitTrajectory 2 5 15 [mkCoordinate 40000003 (-74000004)] in
  let d := SubmitTrajectory 3 20 30
             [mkCoordinate 40000000 (-74000000);
              mkCoordinate 40001000 (-74001000)] in
  snd (transact genesis a) = Ok (RBool true) /\
  count (run genesis [a]) = 1 /\
  snd (transact (run genesis [a]) b) = Ok (RBool false) /\
  count (run genesis [a; b]) = 1 /\
  events (run genesis [a; b]) =
    [mkEvent 1 true 0 10; mkEvent 2 false 5 15] /\
  snd (transact (run genesis [a; b]) d) = Ok (RBool true) /\
  count (run genesis [a; b; d]) = 2.
Proof. repeat split; vm_compute; reflexivity. Qed.

(** ** Ledgers within the expected range

    When every coordinate, stored or submitted, lies in the expected range,
    no distance computation fails, and the decision is the plain one. *)

Lemma scanExisting_in_range (p : Coordinate) (existingPath : list Coordinate) :
  expected_range p -> in_range_path existingPath ->
  exists b, scanExisting p existingPath = Ok b.
Proof.
  intros Hp Hq. rewrite scanExisting_any.
  destruct (@anyStride2_spec _ (tooClose p) existingPath) as (b & Hb & _);
    [| eauto].
  intros i q Hi. apply nth_error_In in Hi.
  destruct (expected_range_distance Hp (proj1 (Forall_forall _ _) Hq q Hi))
    as [d Hd].
  unfold tooClose. rewrite Hd. simpl. eauto.
Qed.

Lemma spatialCheck_in_range (newPath existingPath : list Coordinate) :
  in_range_path newPath -> in_range_path existingPath ->
  exists b, spatialCheck newPath existingPath = Ok b.
Proof.
  intros Hp Hq. rewrite spatialCheck_any.
  destruct (@anyStride2_spec _ (fun p => scanExisting p existingPath) newPath)
    as (b & Hb & _); [| eauto].
  intros i p Hi. apply nth_error_In in Hi.
  apply scanExisting_in_range; [| assumption].
  exact (proj1 (Forall_forall _ _) Hp p Hi).
Qed.

Lemma scanTrajectories_in_range (l : list Trajectory) (newStart newEnd : N)
    (newPath : list Coordinate) :
  in_range_path newPath ->
  Forall (fun t => in_range_path (path t)) l ->
  exists b,
    scanTrajectories l newStart newEnd newPath = Ok b /\
    (b = true <->
     exists t, In t l /\ timeOverlap newStart newEnd t = true /\
               spatialCheck newPath (path t) = Ok true).
Proof.
  intros Hp Hl. induction Hl as [| t l Ht Hl IH].
  - exists false. split; [reflexivity |].
    split; [discriminate | intros (t & [] & _)].
  - destruct IH as (b & Hb & Hiff). cbn [scanTrajectories].
    destruct (timeOverlap newStart newEnd t) eqn:Hov.
    + destruct (spatialCheck_in_range Hp Ht) as [[] Hs]; rewrite Hs;
        cbn [bind].
      * exists true. split; [reflexivity |].
        split; [intros _ | reflexivity]. exists t. simpl. auto.
      * exists b. split; [assumption |]. rewrite Hiff. split.
        -- intros (t' & Hin & H). exists t'. simpl. auto.
        -- intros (t' & [<- | Hin] & Hov' & Hs'); [congruence | eauto].
    + exists b. split; [assumption |]. rewrite Hiff. split.
      * intros (t' & Hin & H). exists t'. simpl. auto.
      * intros (t' & [<- | Hin] & Hov' & Hs'); [congruence | eauto].
Qed.

(** On such a ledger a submission that passes validation is always decided:
    rejected exactly when some stored trajectory overlaps it in time and
    collides with it in space. *)
Lemma submit_in_range_decided (id startTime endTime : N)
    (p : list Coordinate) (s : State) :
  p <> [] ->
  (toSlot startTime < toSlot endTime)%N ->
  in_range_path p ->
  Forall (fun t => in_range_path (path t)) (validatedTrajectories s) ->
  exists accepted' s',
    submitTrajectory id startTime endTime p s = Ok (accepted', s') /\
    (accepted' = false <->
     exists t, In t (validatedTrajectories s) /\
               timeOverlap (toSlot startTime) (toSlot endTime) t = true /\
               spatialCheck p (path t) = Ok true).
Proof.
  intros Hne Hw Hp Hl. rewrite submitTrajectory_spec.
  destruct p as [| c cs]; [congruence |].
  apply N.ltb_lt in Hw. rewrite Hw. unfold isCollision.
  destruct (scanTrajectories_in_range (toSlot startTime) (toSlot endTime)
              Hp Hl) as ([] & -> & Hiff).
  - do 2 eexists. split; [reflexivity |].
    split; [intros _; now apply Hiff | reflexivity].
  - do 2 eexists. split; [reflexivity |].
    split; [discriminate | intros H; now apply Hiff in H].
Qed.

(** ** Coordinate scaling *)

Section Rounding.
Open Scope Q_scope.

Lemma pow2_pos (z : Z) : 0 < 2 ^ z.
Proof. apply Qpower_0_lt. reflexivity. Qed.

Lemma pow2_add (a b : Z) : 2 ^ (a + b) == 2 ^ a * 2 ^ b.
Proof. apply Qpower_plus. discriminate. Qed.

Lemma pow2_le (a b : Z) : (a <= b)%Z -> 2 ^ a <= 2 ^ b.
Proof. intros H. apply Qpower_le_compat_l; [assumption | discriminate]. Qed.

Lemma pow2_inject (a : Z) : (0 <= a)%Z -> inject_Z (2 ^ a) == 2 ^ a.
Proof. intros H. now rewrite Zpower_Qpower. Qed.

Lemma rne_error (x : Q) : Qabs (inject_Z (rne x) - x) <= 1 # 2.
Proof.
  unfold rne. pose proof (Qfloor_le x) as Hl. pose proof (Qlt_floor x) as Hu.
  rewrite inject_Z_plus in Hu. change (inject_Z 1) with 1 in Hu.
  apply Qabs_Qle_condition.
  destruct (Qcompare_spec (x - inject_Z (Qfloor x)) (1 # 2)) as [E | E | E].
  - destruct (Z.even (Qfloor x)).
    + split; lra.
    + rewrite inject_Z_plus. change (inject_Z 1) with 1. split; lra.
  - split; lra.
  - rewrite inject_Z_plus. change (inject_Z 1) with 1. split; lra.
Qed.

Lemma ilog2_lower (q : Q) : ~ q == 0 -> 2 ^ ilog2 q <= Qabs q.
Proof.
  intros Hq. unfold ilog2.
  set (A := Z.abs (Qnum q)). set (B := Z.pos (Qden q)).
  set (d := (Z.log2 A - Z.log2 B)%Z).
  destruct (Qle_bool (2 ^ d) (Qabs q)) eqn:E.
  - now apply Qle_bool_iff.
  - clear E.
    assert (HA : (0 < A)%Z).
    { unfold A. destruct q as [a b]. simpl. unfold Qeq in Hq. simpl in Hq. lia. }
    assert (HB : (0 < B)%Z) by reflexivity.
    destruct (Z.log2_spec A HA) as [HlA _].
    destruct (Z.log2_spec B HB) as [_ HuB].
    assert (Eabs : Qabs q == inject_Z A / inject_Z B).
    { destruct q as [a b]. unfold A, B. simpl. apply Qmake_Qdiv. }
    rewrite Eabs. apply Qle_shift_div_l.
    { change 0 with (inject_Z 0). now rewrite <- Zlt_Qlt. }
    apply Qle_trans with (2 ^ (d - 1) * 2 ^ (Z.succ (Z.log2 B))).
    + apply Qmult_le_l; [apply pow2_pos |].
      rewrite <- pow2_inject by (pose proof (Z.log2_nonneg B); lia).
      rewrite <- Zle_Qle. lia.
    + rewrite <- pow2_add.
      replace (d - 1 + Z.succ (Z.log2 B))%Z with (Z.log2 A) by (unfold d; lia).
      rewrite <- pow2_inject by apply Z.log2_nonneg.
      now rewrite <- Zle_Qle.
Qed.

Lemma to_Q_zero : to_Q (mkFloat 0 0) == 0.
Proof. reflexivity. Qed.

Lemma RN_error (q : Q) (n : Z) :
  (-1021 <= n <= 1023)%Z -> Qabs q < 2 ^ n ->
  exists f, RN q = Some f /\ Qabs (to_Q f - q) <= 2 ^ (n - 54).
Proof.
  intros Hn Hq. unfold RN.
  destruct (Qeq_bool q 0) eqn:E0.
  - apply Qeq_bool_eq in E0. exists (mkFloat 0 0). split; [reflexivity |].
    rewrite to_Q_zero, E0. apply Qlt_le_weak, pow2_pos.
  - apply Qeq_bool_neq in E0.
    set (e := Z.max (ilog2 q) (-1022)).
    assert (He : (e <= n - 1)%Z).
    { assert (ilog2 q < n)%Z; [| lia].
      apply Qpower_lt_compat_l_inv with (q := 2); [| reflexivity].
      eapply Qle_lt_trans; [apply ilog2_lower; assumption | assumption]. }
    remember (q * 2 ^ (52 - e)) as x eqn:Hx.
    assert (Eq : q == x * 2 ^ (e - 52)).
    { rewrite Hx, <- Qmult_assoc, <- pow2_add.
      replace (52 - e + (e - 52))%Z with 0%Z by lia.
      change (2 ^ 0) with 1. now rewrite Qmult_1_r. }
    assert (Herr : Qabs (to_Q (mkFloat (rne x) (e - 52)) - q) <= 2 ^ (n - 54)).
    { unfold to_Q. cbn [mant expo].
      rewrite Eq at 1.
      setoid_replace (inject_Z (rne x) * 2 ^ (e - 52) - x * 2 ^ (e - 52))
        with ((inject_Z (rne x) - x) * 2 ^ (e - 52)) by ring.
      rewrite Qabs_Qmult, (Qabs_pos (2 ^ (e - 52)))
        by (apply Qlt_le_weak, pow2_pos).
      apply Qle_trans with ((1 # 2) * 2 ^ (e - 52)).
      - apply Qmult_le_compat_r;
          [apply rne_error | apply Qlt_le_weak, pow2_pos].
      - change (1 # 2) with (2 ^ (-1)). rewrite <- pow2_add.
        apply pow2_le. lia. }
    exists (mkFloat (rne x) (e - 52)).
    split; [| exact Herr].
    replace (Qle_bool (2 ^ 1024) (Qabs (to_Q (mkFloat (rne x) (e - 52)))))
      with false; [reflexivity |].
    symmetry. apply not_true_is_false. intros Hle.
    apply Qle_bool_iff in Hle.
    pose proof (Qabs_triangle_reverse
                  (to_Q (mkFloat (rne x) (e - 52))) q) as Htri.
    assert (H1 : 2 ^ (n - 54) <= 2 ^ 1023) by (apply pow2_le; lia).
    assert (H2 : 2 ^ n <= 2 ^ 1023) by (apply pow2_le; lia).
    assert (H3 : 2 ^ 1024 == 2 ^ 1023 + 2 ^ 1023) by reflexivity.
    lra.
Qed.
End Rounding.

Section RoundTrip.
Open Scope Q_scope.

Lemma Math_round_error (x : float) :
  Qabs (inject_Z (Math_round x) - to_Q x) <= 1 # 2.
Proof.
  unfold Math_round.
  pose proof (Qfloor_le (to_Q x + (1 # 2))) as Hl.
  pose proof (Qlt_floor (to_Q x + (1 # 2))) as Hu.
  rewrite inject_Z_plus in Hu. change (inject_Z 1) with 1 in Hu.
  apply Qabs_Qle_condition. split; lra.
Qed.

(** C10: for every number [v] of absolute value at most 180, scaling and
    unscaling both return, and the round trip differs from [v] by at most
    [0.5 / 1e6 + 2 ^ -44]. *)
Theorem roundtrip_bound (v : float) :
  Qabs (to_Q v) <= 180 ->
  exists k u,
    scaleCoordinate v = Some k /\
    unscaleCoordinate k = Some u /\
    Qabs (to_Q u - to_Q v) <= (1 # 2) / 1000000 + 2 ^ (-44).
Proof.
  intros Hv. apply Qabs_Qle_condition in Hv.
  unfold scaleCoordinate, fmul.
  change (to_Q million) with 1000000.
  destruct (@RN_error (to_Q v * 1000000) 28) as (p & -> & Ep); [lia | |].
  { change (2 ^ 28) with 268435456.
    apply Qabs_Qlt_condition. split; lra. }
  pose proof (Math_round_error p) as Ek.
  set (k := Math_round p) in *. exists k.
  apply Qabs_Qle_condition in Ep, Ek.
  change (2 ^ (28 - 54)) with (1 # 67108864) in Ep.
  unfold unscaleCoordinate, Number_of.
  destruct (@RN_error (inject_Z k) 28) as (k' & -> & Ek'); [lia | |].
  { change (2 ^ 28) with 268435456.
    apply Qabs_Qlt_condition. split; lra. }
  apply Qabs_Qle_condition in Ek'.
  change (2 ^ (28 - 54)) with (1 # 67108864) in Ek'.
  unfold fdiv. change (Qeq_bool (to_Q million) 0) with false. cbv iota.
  change (to_Q million) with 1000000.
  assert (Ediv : to_Q k' / 1000000 == to_Q k' * (1 # 1000000)) by reflexivity.
  destruct (@RN_error (to_Q k' / 1000000) 8) as (u & -> & Eu); [lia | |].
  { change (2 ^ 8) with 256. rewrite Ediv.
    apply Qabs_Qlt_condition. split; lra. }
  rewrite Ediv in Eu. apply Qabs_Qle_condition in Eu.
  change (2 ^ (8 - 54)) with (1 # 70368744177664) in Eu.
  exists u. split; [reflexivity |]. split; [reflexivity |].
  change ((1 # 2) / 1000000 + 2 ^ (-44))
    with ((1 # 2000000) + (1 # 17592186044416)).
  apply Qabs_Qle_condition. split; lra.
Qed.

Lemma roundtrip_bound_witness :
  exists k u,
    scaleCoordinate sample_degrees = Some k /\
    unscaleCoordinate k = Some u /\
    Qabs (to_Q u - to_Q sample_degrees) <= (1 # 2) / 1000000 + 2 ^ (-44).
Proof.
  apply roundtrip_bound. vm_compute. discriminate.
Defined.

(** C10 is worded with the bound [0.5 / 1e6], which alone does not hold.
    The number written [137.3730805] lies just below that decimal; its
    product with [1e6] is rounded up to [137373080.5], [Math.round] takes the
    tie upwards, and the quotient of [137373081] by [1e6] ends further than
    half a unit from where it started.  The product and the quotient are
    those of the Standard Library's binary64 multiplication and division. *)
Lemma roundtrip_exceeds_half_unit :
  RN (1373730805 # 10000000) = Some sample_degrees /\
  (Z.abs (mant sample_degrees) < 2 ^ 53)%Z /\
  Qabs (to_Q sample_degrees) <= 180 /\
  fmul sample_degrees million = Some (mkFloat 4609475688267776 (-25)) /\
  SFmul 53 1024 (to_spec sample_degrees) (to_spec million) =
    to_spec (mkFloat 4609475688267776 (-25)) /\
  to_Q (mkFloat 4609475688267776 (-25)) == 1373730805 # 10 /\
  scaleCoordinate sample_degrees = Some 137373081%Z /\
  unscaleCoordinate 137373081 = Some (mkFloat 4833385596893258 (-45)) /\
  SFdiv 53 1024 (to_spec (mkFloat 137373081 0)) (to_spec million) =
    to_spec (mkFloat 4833385596893258 (-45)) /\
  ~ Qabs (to_Q (mkFloat 4833385596893258 (-45)) - to_Q sample_degrees)
    <= (1 # 2) / 1000000.
Proof.
  split; [vm_compute; reflexivity |].
  split; [reflexivity |].
  split; [vm_compute; discriminate |].
  split; [vm_compute; reflexivity |].
  split; [vm_compute; reflexivity |].
  split; [vm_compute; reflexivity |].
  split; [vm_compute; reflexivity |].
  split; [vm_compute; reflexivity |].
  split; [vm_compute; reflexivity |].
  intros H. vm_compute in H. apply H. reflexivity.
Qed.

(** On further inputs, one negative, one in the subnormal range and one
    beyond the largest finite value, the model returns what the Standard
    Library's binary64 operations return. *)
Lemma rounding_agrees_on_samples :
  (exists f, fmul (mkFloat (-7074029114692207) (-49)) million = Some f /\
     SFmul 53 1024 (to_spec (mkFloat (-7074029114692207) (-49)))
                   (to_spec million) = to_spec f) /\
  (exists f, fdiv (mkFloat (-40123457) 0) million = Some f /\
     SFdiv 53 1024 (to_spec (mkFloat (-40123457) 0)) (to_spec million)
       = to_spec f) /\
  (exists f, fdiv (mkFloat 3 (-1074)) (mkFloat 2 0) = Some f /\
     SFdiv 53 1024 (to_spec (mkFloat 3 (-1074))) (to_spec (mkFloat 2 0))
       = to_spec f) /\
  (exists f, fdiv (mkFloat 1 0) (mkFloat 3 0) = Some f /\
     SFdiv 53 1024 (to_spec (mkFloat 1 0)) (to_spec (mkFloat 3 0))
       = to_spec f) /\
  fmul (mkFloat 1 1020) million = None /\
  SFmul 53 1024 (to_spec (mkFloat 1 1020)) (to_spec million)
    = S754_infinity false.
Proof.
  repeat split; try (eexists; split); vm_compute; reflexivity.
Qed.
End RoundTrip.

(** * Further properties of the contract *)

(** ** Distance *)

Lemma squares_sym (a b : Coordinate) : squares a b = squares b a.
Proof. unfold squares. ring. Qed.

Lemma squares_self (a : Coordinate) : squares a a = 0%Z.
Proof. unfold squares. ring. Qed.

(** X1: [distance] does not depend on the order of its two points, also
    where it aborts. *)
Theorem distance_sym (a b : Coordinate) : distance a b = distance b a.
Proof. rewrite !distance_spec, squares_sym. reflexivity. Qed.

Lemma within_threshold (p q : Coordinate) :
  (exists d, distance p q = Ok d /\ (d <= COLLISION_DISTANCE)%N) <->
  (squares p q <= 63)%Z.
Proof.
  assert (Hpos : (0 <= squares p q)%Z)
    by (apply Z.add_nonneg_nonneg; apply Z.square_nonneg).
  pose proof (Z.sqrt_spec _ Hpos) as Hs. cbv zeta in Hs.
  pose proof (Z.sqrt_nonneg (squares p q)) as Hn.
  split.
  - intros (d & Hd & Hle). apply distance_Ok in Hd. destruct Hd as [_ ->].
    unfold COLLISION_DISTANCE in Hle.
    assert (Z.sqrt (squares p q) <= 7)%Z by lia. nia.
  - intros H. exists (Z.to_N (Z.sqrt (squares p q))). rewrite distance_spec.
    destruct (Z.leb_spec (squares p q) Int.max) as [_ | Hgt].
    + split; [reflexivity |]. unfold COLLISION_DISTANCE.
      assert (Z.sqrt (squares p q) <= 7)%Z; [| lia].
      destruct (Z_le_gt_dec (Z.sqrt (squares p q)) 7); [assumption | nia].
    + exfalso. assert (63 < Int.max)%Z by reflexivity. lia.
Qed.

(** X2: two points are within [COLLISION_DISTANCE] for the contract exactly
    when the sum of the squares of their differences is at most 63: the
    floor of the square root lets distances up to the square root of 63
    through. *)
Theorem collision_threshold (p q : Coordinate) :
  (exists d, distance p q = Ok d /\ (d <= COLLISION_DISTANCE)%N) <->
  (squares p q <= 63)%Z.
Proof.
  exact (within_threshold p q).
Qed.

Lemma tooClose_squares (p q : Coordinate) :
  tooClose p q = Ok true <-> (squares p q <= 63)%Z.
Proof. rewrite tooClose_true. apply within_threshold. Qed.

Lemma tooClose_sym (p q : Coordinate) : tooClose p q = tooClose q p.
Proof.
  unfold tooClose. rewrite !distance_spec, squares_sym. reflexivity.
Qed.

(** ** What the sampling never looks at *)

Lemma anyStride2_even_ext {A : Type} (f : A -> result bool) (l1 : list A) :
  forall l2,
    (forall i, nth_error l1 (2 * i) = nth_error l2 (2 * i)) ->
    anyStride2 f l1 = anyStride2 f l2.
Proof.
  induction l1 as [| a | a b l IH] using list_ind2; intros l2 H.
  - pose proof (H 0) as H0. destruct l2; [reflexivity | discriminate].
  - pose proof (H 0) as H0. pose proof (H 1) as H1.
    destruct l2 as [| a' [| b' [| c' l2]]]; try discriminate;
      injection H0 as <-; cbn [anyStride2];
      destruct (f a) as [[] | |]; reflexivity.
  - pose proof (H 0) as H0. pose proof (H 1) as H1.
    destruct l2 as [| a' l2]; [discriminate |]. injection H0 as <-.
    destruct l2 as [| b' l2].
    + destruct l as [| c l]; [| discriminate].
      cbn [anyStride2]. destruct (f a) as [[] | |]; reflexivity.
    + cbn [anyStride2]. destruct (f a) as [[] | |]; cbn [bind];
        try reflexivity.
      apply IH. intros i. specialize (H (S i)).
      now rewrite !nth_error_stride in H.
Qed.

(** X3: the spatial check depends on the points at even indices only: two
    new paths, or two stored paths, that agree at every even index get the
    same answer, whatever their points at odd indices are. *)
Theorem odd_indices_ignored :
  (forall newPath newPath' existingPath,
     (forall i, nth_error newPath (2 * i) = nth_error newPath' (2 * i)) ->
     spatialCheck newPath existingPath = spatialCheck newPath' existingPath) /\
  (forall newPath existingPath existingPath',
     (forall j, nth_error existingPath (2 * j) =
                nth_error existingPath' (2 * j)) ->
     spatialCheck newPath existingPath = spatialCheck newPath existingPath').
Proof.
  split.
  - intros p p' q H. rewrite !spatialCheck_any.
    now apply anyStride2_even_ext.
  - intros p q q' H. rewrite !spatialCheck_any. apply anyStride2_ext.
    intros a. rewrite !scanExisting_any. now apply anyStride2_even_ext.
Qed.

Lemma odd_indices_ignored_witness :
  spatialCheck [mkCoordinate 100 100; origin] [origin] =
  spatialCheck [mkCoordinate 100 100; mkCoordinate 50 50] [origin].
Proof.
  apply (proj1 odd_indices_ignored).
  intros [| i]; [reflexivity |].
  replace (2 * S i) with (S (S (2 * i))) by lia. reflexivity.
Defined.

(** ** Symmetry of the spatial check *)

(** A declared collision is a close pair of sampled points, stated on the
    squares; the converse holds when no comparison can abort. *)
Lemma spatialCheck_true_pair (p q : list Coordinate) :
  spatialCheck p q = Ok true ->
  exists i j a b,
    nth_error p (2 * i) = Some a /\ nth_error q (2 * j) = Some b /\
    (squares a b <= 63)%Z.
Proof.
  rewrite spatialCheck_any. intros H.
  apply anyStride2_true in H. destruct H as (i & a & Ha & H).
  rewrite scanExisting_any in H.
  apply anyStride2_true in H. destruct H as (j & b & Hb & H).
  apply tooClose_squares in H. exists i, j, a, b. auto.
Qed.

Lemma spatialCheck_pair_true (p q : list Coordinate) :
  in_range_path p -> in_range_path q ->
  (exists i j a b,
     nth_error p (2 * i) = Some a /\ nth_error q (2 * j) = Some b /\
     (squares a b <= 63)%Z) ->
  spatialCheck p q = Ok true.
Proof.
  intros Hp Hq (i & j & a & b & Ha & Hb & Hab).
  rewrite spatialCheck_any.
  destruct (@anyStride2_spec _ (fun a => scanExisting a q) p)
    as (r & -> & Hiff).
  { intros i' a' Hi'. apply nth_error_In in Hi'.
    apply scanExisting_in_range; [| assumption].
    exact (proj1 (Forall_forall _ _) Hp a' Hi'). }
  f_equal. apply Hiff. exists i, a. split; [assumption |].
  rewrite scanExisting_any.
  destruct (@anyStride2_spec _ (tooClose a) q) as (r' & -> & Hiff').
  { intros j' b' Hj'. apply nth_error_In in Hj'. apply nth_error_In in Ha.
    destruct (expected_range_distance
                (proj1 (Forall_forall _ _) Hp a Ha)
                (proj1 (Forall_forall _ _) Hq b' Hj')) as [d Hd].
    unfold tooClose. rewrite Hd. simpl. eauto. }
  f_equal. apply Hiff'. exists j, b. split; [assumption |].
  now apply tooClose_squares.
Qed.

(** X4: on paths within the expected range the spatial check gives the same
    answer when the two paths change places. *)
Theorem spatialCheck_sym (p q : list Coordinate) :
  in_range_path p -> in_range_path q ->
  spatialCheck p q = spatialCheck q p.
Proof.
  intros Hp Hq.
  destruct (spatialCheck_in_range Hp Hq) as [b Hb].
  destruct (spatialCheck_in_range Hq Hp) as [b' Hb'].
  rewrite Hb, Hb'. f_equal.
  assert (Hswap : forall p q : list Coordinate,
            (exists i j a b,
               nth_error p (2 * i) = Some a /\ nth_error q (2 * j) = Some b /\
               (squares a b <= 63)%Z) ->
            exists i j a b,
              nth_error q (2 * i) = Some a /\ nth_error p (2 * j) = Some b /\
              (squares a b <= 63)%Z).
  { intros p0 q0 (i & j & a & c & Ha & Hc & H).
    exists j, i, c, a. rewrite squares_sym. auto. }
  destruct b, b'; try reflexivity.
  - apply spatialCheck_true_pair, Hswap in Hb.
    rewrite (spatialCheck_pair_true Hq Hp Hb) in Hb'. discriminate.
  - apply spatialCheck_true_pair, Hswap in Hb'.
    rewrite (spatialCheck_pair_true Hp Hq Hb') in Hb. discriminate.
Qed.

Lemma spatialCheck_sym_witness :
  spatialCheck [mkCoordinate 3 4; mkCoordinate 9 9; mkCoordinate 100 0]
               [mkCoordinate 50 50; origin; mkCoordinate 100 5] =
  spatialCheck [mkCoordinate 50 50; origin; mkCoordinate 100 5]
               [mkCoordinate 3 4; mkCoordinate 9 9; mkCoordinate 100 0].
Proof.
  apply spatialCheck_sym;
    repeat constructor; vm_compute; discriminate.
Defined.

(** ** A path against itself *)

Lemma distance_self (a : Coordinate) : distance a a = Ok 0%N.
Proof. rewrite distance_spec, squares_self. reflexivity. Qed.

(** The first comparison of a path with a path that starts at the same point
    is a hit, wherever the other points lie. *)
Lemma spatialCheck_same_start (a : Coordinate) (p q : list Coordinate) :
  spatialCheck (a :: p) (a :: q) = Ok true.
Proof. cbn [spatialCheck scanExisting]. rewrite distance_self. reflexivity. Qed.

(** ** Invariants of the ledger and of the event log *)

(** What one call does to the state. *)
Lemma transact_effects (s : State) (c : call) :
  (exists id startTime endTime p,
     c = SubmitTrajectory id startTime endTime p /\
     p <> [] /\ (toSlot startTime < toSlot endTime)%N /\
     isCollision s (toSlot startTime) (toSlot endTime) p = Ok false /\
     transact s c =
       (mkState (validatedTrajectories s ++ [admitted id startTime endTime p])
                (events s ++ [outcome id true startTime endTime]),
        Ok (RBool true))) \/
  (exists id startTime endTime p,
     c = SubmitTrajectory id startTime endTime p /\
     p <> [] /\ (toSlot startTime < toSlot endTime)%N /\
     isCollision s (toSlot startTime) (toSlot endTime) p = Ok true /\
     transact s c =
       (emit (outcome id false startTime endTime) s, Ok (RBool false))) \/
  (fst (transact s c) = s /\
   forall b, snd (transact s c) <> Ok (RBool b)).
Proof.
  destruct c as [id startTime endTime p | | index | trajIndex coordIndex].
  - rewrite transact_submit, submitTrajectory_spec.
    destruct p as [| c cs]; [right; right; split; [reflexivity | discriminate] |].
    destruct (N.ltb_spec (toSlot startTime) (toSlot endTime)) as [Hw | Hw];
      [| right; right; split; [reflexivity | discriminate]].
    destruct (isCollision _ _ _ _) as [[] | |] eqn:E;
      try (right; right; split; [reflexivity | discriminate]).
    + right; left. exists id, startTime, endTime, (c :: cs).
      repeat split; try assumption; try reflexivity; discriminate.
    + left. exists id, startTime, endTime, (c :: cs).
      repeat split; try assumption; try reflexivity; discriminate.
  - right; right. split; [reflexivity | discriminate].
  - right; right. unfold transact, execute.
    destruct (getTrajectoryMeta index s); split;
      try reflexivity; discriminate.
  - right; right. unfold transact, execute.
    destruct (getTrajectoryCoordinate trajIndex coordIndex s); split;
      try reflexivity; discriminate.
Qed.

Lemma run_ind (P : State -> Prop) :
  (forall s c, P s -> P (fst (transact s c))) ->
  forall calls s, P s -> P (run s calls).
Proof.
  intros Hstep. induction calls as [| c calls IH]; intros s Hs;
    [assumption |].
  rewrite run_cons. apply IH, Hstep, Hs.
Qed.

Lemma run_extends (s : State) (calls : list call) :
  exists suffix,
    validatedTrajectories (run s calls) = validatedTrajectories s ++ suffix.
Proof.
  revert s. induction calls as [| c calls IH]; intros s.
  - exists []. now rewrite app_nil_r.
  - rewrite run_cons. destruct (IH (fst (transact s c))) as [suffix ->].
    destruct (transact_cases s c) as [(_ & t & _ & ->) | (_ & ->)].
    + exists (t :: suffix). now rewrite <- app_assoc.
    + now exists suffix.
Qed.

Lemma split_snoc {A : Type} (l pre suf : list A) (t x : A) :
  l ++ [x] = pre ++ t :: suf ->
  (pre = l /\ t = x /\ suf = []) \/
  (exists suf', suf = suf' ++ [x] /\ l = pre ++ t :: suf').
Proof.
  intros H. destruct suf as [| y suf] using rev_ind.
  - apply app_inj_tail in H. destruct H as [-> ->]. left. auto.
  - clear IHsuf. right.
    change (pre ++ t :: suf ++ [y]) with (pre ++ (t :: suf) ++ [y]) in H.
    rewrite app_assoc in H. apply app_inj_tail in H. destruct H as [-> ->].
    exists suf. split; reflexivity.
Qed.

Lemma collision_free_step (s : State) (c : call) :
  collision_free (validatedTrajectories s) ->
  collision_free (validatedTrajectories (fst (transact s c))).
Proof.
  intros Hs.
  destruct (transact_effects s c)
    as [(id & st & en & p & -> & Hp & Hw & Hc & ->)
       | [(id & st & en & p & -> & Hp & Hw & Hc & ->) | [-> _]]];
    try assumption.
  cbn [fst validatedTrajectories]. intros pre t suf E.
  apply split_snoc in E.
  destruct E as [(-> & -> & _) | (suf' & _ & E)].
  - exact Hc.
  - exact (Hs pre t suf' E).
Qed.

Lemma scanTrajectories_false_inv (l : list Trajectory) (newStart newEnd : N)
    (newPath : list Coordinate) :
  scanTrajectories l newStart newEnd newPath = Ok false ->
  forall t, In t l -> timeOverlap newStart newEnd t = true ->
            spatialCheck newPath (path t) = Ok false.
Proof.
  induction l as [| t' l IH]; intros H t Hin Hov; [destruct Hin |].
  cbn [scanTrajectories] in H.
  destruct (timeOverlap newStart newEnd t') eqn:Hov'.
  - destruct (spatialCheck newPath (path t')) as [[] | |] eqn:Hs;
      cbn [bind] in H; try discriminate.
    destruct Hin as [<- | Hin]; [assumption | now apply IH].
  - destruct Hin as [<- | Hin]; [congruence | now apply IH].
Qed.

(** X5: after any sequence of calls, no stored trajectory collides with one
    stored before it: whenever the window of the later one overlaps the
    earlier one, the spatial check of the later path against the earlier
    path answers [false]. *)
Theorem ledger_collision_free (calls : list call) (i j : nat)
    (ti tj : Trajectory) :
  i < j ->
  nth_error (validatedTrajectories (run genesis calls)) i = Some ti ->
  nth_error (validatedTrajectories (run genesis calls)) j = Some tj ->
  timeOverlap (startSlot tj) (endSlot tj) ti = true ->
  spatialCheck (path tj) (path ti) = Ok false.
Proof.
  intros Hij Hi Hj Hov.
  assert (Hfree : collision_free (validatedTrajectories (run genesis calls))).
  { apply run_ind; [apply collision_free_step |].
    intros pre t suf E. destruct pre; discriminate. }
  destruct (nth_error_split _ _ Hj) as (pre & suf & E & Hlen).
  pose proof (Hfree pre tj suf E) as Hadm.
  rewrite E, nth_error_app1 in Hi by lia.
  apply nth_error_In in Hi.
  exact (scanTrajectories_false_inv _ _ _ _ Hadm ti Hi Hov).
Qed.

Lemma ledger_collision_free_witness :
  spatialCheck (path (mkTrajectory 2 5 15 [mkCoordinate 20 20]))
               (path (mkTrajectory 1 0 10 [origin])) = Ok false.
Proof.
  apply (@ledger_collision_free
           [SubmitTrajectory 1 0 10 [origin];
            SubmitTrajectory 2 5 15 [mkCoordinate 20 20]] 0 1);
    [lia | reflexivity | reflexivity | reflexivity].
Defined.

Lemma event_log_step (s : State) (c : call) :
  accepted_events s = map event_of (validatedTrajectories s) /\
  Forall valid_event (events s) ->
  accepted_events (fst (transact s c)) =
    map event_of (validatedTrajectories (fst (transact s c))) /\
  Forall valid_event (events (fst (transact s c))).
Proof.
  intros [Hacc Hval]. unfold accepted_events in *.
  destruct (transact_effects s c)
    as [(id & st & en & p & -> & Hp & Hw & Hc & ->)
       | [(id & st & en & p & -> & Hp & Hw & Hc & ->) | [-> _]]];
    [| | split; assumption];
    cbn [fst validatedTrajectories events emit];
    rewrite filter_app, Hacc; cbn [filter outcome ev_accepted];
    (split; [| apply Forall_app; split;
                 [assumption | constructor; [exact Hw | constructor]]]).
  - rewrite map_app. reflexivity.
  - now rewrite app_nil_r.
Qed.

(** X6: after any sequence of calls, the events with [accepted = true], in
    the order of the log, carry the car and the two slots of the stored
    trajectories, one event for each, in the order of the indices; and every
    event of the log has [startSlot < endSlot]. *)
Theorem event_log_mirrors_ledger (calls : list call) :
  accepted_events (run genesis calls) =
    map event_of (validatedTrajectories (run genesis calls)) /\
  length (accepted_events (run genesis calls)) = count (run genesis calls) /\
  Forall valid_event (events (run genesis calls)).
Proof.
  assert (H : accepted_events (run genesis calls) =
                map event_of (validatedTrajectories (run genesis calls)) /\
              Forall valid_event (events (run genesis calls))).
  { apply (run_ind (fun s =>
             accepted_events s = map event_of (validatedTrajectories s) /\
             Forall valid_event (events s))).
    - intros s c. apply event_log_step.
    - split; [reflexivity | constructor]. }
  destruct H as [Hacc Hval]. split; [assumption |]. split; [| assumption].
  rewrite Hacc. apply length_map.
Qed.

(** X7: a submission that was accepted is rejected when it is made again
    with the same two times and the same path, for whatever car and after
    whatever further calls. *)
Theorem resubmission_rejected (id startTime endTime : N)
    (p : list Coordinate) (s s1 : State) :
  submitTrajectory id startTime endTime p s = Ok (true, s1) ->
  forall more id',
    submitTrajectory id' startTime endTime p (run s1 more) =
    Ok (false, emit (outcome id' false startTime endTime) (run s1 more)).
Proof.
  rewrite submitTrajectory_spec. intros H more id'.
  destruct p as [| c cs]; [discriminate |].
  destruct (N.ltb_spec (toSlot startTime) (toSlot endTime)) as [Hw | Hw];
    [| discriminate].
  unfold isCollision in H.
  destruct (scanTrajectories (validatedTrajectories s) (toSlot startTime)
              (toSlot endTime) (c :: cs)) as [[] | |] eqn:Hpre;
    try discriminate.
  injection H as <-.
  destruct (run_extends
              (mkState (validatedTrajectories s ++
                        [admitted id startTime endTime (c :: cs)])
                       (events s ++ [outcome id true startTime endTime]))
              more) as [suffix Hsuf].
  cbn [validatedTrajectories] in Hsuf. rewrite <- app_assoc in Hsuf.
  cbn [app] in Hsuf.
  rewrite submitTrajectory_spec.
  apply N.ltb_lt in Hw. rewrite Hw. unfold isCollision. rewrite Hsuf.
  rewrite (@scanTrajectories_first_hit _ suffix _ _ _ _ Hpre).
  - reflexivity.
  - unfold timeOverlap, admitted. cbn [startSlot endSlot]. now rewrite Hw.
  - apply spatialCheck_same_start.
Qed.

Lemma resubmission_rejected_witness :
  submitTrajectory 7 0 10 [origin]
    (run (mkState [mkTrajectory 1 0 10 [origin]] [mkEvent 1 true 0 10])
         [SubmitTrajectory 2 10 20 [remote]]) =
  Ok (false,
      emit (outcome 7 false 0 10)
        (run (mkState [mkTrajectory 1 0 10 [origin]] [mkEvent 1 true 0 10])
             [SubmitTrajectory 2 10 20 [remote]])).
Proof.
  apply (@resubmission_rejected 1 0 10 [origin] genesis). reflexivity.
Defined.

(** ** Submissions within the expected range *)

Lemma transact_in_range (s : State) (c : call) :
  in_range_ledger (validatedTrajectories s) -> submitted_in_range c ->
  in_range_ledger (validatedTrajectories (fst (transact s c))) /\
  forall code, snd (transact s c) <> Panic code.
Proof.
  intros Hs Hc.
  destruct c as [id startTime endTime p | | index | trajIndex coordIndex].
  - rewrite transact_submit, submitTrajectory_spec.
    destruct p as [| c cs]; [split; [assumption | discriminate] |].
    destruct (toSlot startTime <? toSlot endTime)%N;
      [| split; [assumption | discriminate]].
    unfold isCollision.
    destruct (scanTrajectories_in_range (toSlot startTime) (toSlot endTime)
                Hc Hs) as ([] & -> & _).
    + split; [assumption | discriminate].
    + split; [| discriminate]. cbn [fst validatedTrajectories].
      apply Forall_app. split; [assumption |].
      constructor; [exact Hc | constructor].
  - split; [assumption | discriminate].
  - unfold transact, execute. rewrite getTrajectoryMeta_spec.
    destruct (nth_error _ _); split; try assumption; discriminate.
  - unfold transact, execute. rewrite getTrajectoryCoordinate_spec.
    destruct (nth_error _ _) as [t |];
      [destruct (nth_error (path t) _) |];
      split; try assumption; discriminate.
Qed.

Lemma run_in_range (calls : list call) :
  forall s,
    in_range_ledger (validatedTrajectories s) ->
    Forall submitted_in_range calls ->
    in_range_ledger (validatedTrajectories (run s calls)).
Proof.
  induction calls as [| c calls IH]; intros s Hs Hc; [assumption |].
  rewrite run_cons. inversion Hc as [| ? ? Hc1 Hc2]; subst.
  apply IH; [| assumption]. now apply transact_in_range.
Qed.

(** X8: when every path submitted lies in the expected range, every stored
    coordinate lies in it, and no call of the sequence aborts with a
    [Panic]: a submission returns [true] or [false], or fails one of the
    two [require]s. *)
Theorem in_range_never_panics (calls : list call) :
  Forall submitted_in_range calls ->
  in_range_ledger (validatedTrajectories (run genesis calls)) /\
  forall before c after code,
    calls = before ++ c :: after ->
    snd (transact (run genesis before) c) <> Panic code.
Proof.
  intros H. split.
  - apply run_in_range; [constructor | assumption].
  - intros before c after code ->.
    apply Forall_app in H. destruct H as [Hb Hc].
    inversion Hc as [| ? ? Hc1 _]; subst.
    apply transact_in_range; [| assumption].
    apply run_in_range; [constructor | assumption].
Qed.

Lemma in_range_never_panics_witness :
  in_range_ledger
    (validatedTrajectories
       (run genesis [SubmitTrajectory 1 0 10 [origin];
                     SubmitTrajectory 2 5 15 [mkCoordinate 3 4]])) /\
  forall before c after code,
    [SubmitTrajectory 1 0 10 [origin];
     SubmitTrajectory 2 5 15 [mkCoordinate 3 4]] = before ++ c :: after ->
    snd (transact (run genesis before) c) <> Panic code.
Proof.
  apply (@in_range_never_panics
           [SubmitTrajectory 1 0 10 [origin];
            SubmitTrajectory 2 5 15 [mkCoordinate 3 4]]).
  repeat constructor; vm_compute; discriminate.
Defined.

(** ** The two getters together *)

(** X9: after any sequence of calls and for every index below the count,
    [getTrajectoryMeta] returns slots with [startSlot < endSlot] and a path
    length of at least one, and [getTrajectoryCoordinate] returns for every
    coordinate index below that length and fails with "Invalid coordinate"
    from that length on. *)
Theorem getters_agree (calls : list call) (i : N) :
  (i < N.of_nat (count (run genesis calls)))%N ->
  exists id startSlot' endSlot' pathLength,
    getTrajectoryMeta i (run genesis calls) =
      Ok (id, startSlot', endSlot', pathLength) /\
    (startSlot' < endSlot')%N /\
    (1 <= pathLength)%N /\
    (forall j, (j < pathLength)%N ->
       exists c, getTrajectoryCoordinate i j (run genesis calls) = Ok c) /\
    (forall j, (pathLength <= j)%N ->
       getTrajectoryCoordinate i j (run genesis calls) =
       Revert "Invalid coordinate").
Proof.
  intros Hi. set (s := run genesis calls) in *.
  destruct (@run_invariant calls genesis) as (Hwf & _); [constructor |].
  fold s in Hwf. unfold count in Hi.
  destruct (in_bounds _ Hi) as [t Ht].
  pose proof (proj1 (Forall_forall _ _) Hwf t (nth_error_In _ _ Ht))
    as [Hslots Hpath].
  exists (carId t), (startSlot t), (endSlot t), (N.of_nat (length (path t))).
  split; [rewrite getTrajectoryMeta_spec, Ht; reflexivity |].
  split; [assumption |].
  split; [destruct (path t); [congruence | simpl; lia] |].
  split.
  - intros j Hj. destruct (in_bounds _ Hj) as [c Hc].
    exists (latitude c, longitude c).
    rewrite getTrajectoryCoordinate_spec, Ht, Hc. reflexivity.
  - intros j Hj. rewrite getTrajectoryCoordinate_spec, Ht.
    replace (nth_error (path t) (N.to_nat j)) with (@None Coordinate);
      [reflexivity |].
    symmetry. apply nth_error_None. lia.
Qed.

Lemma getters_agree_witness :
  exists id startSlot' endSlot' pathLength,
    getTrajectoryMeta 1 two_cars = Ok (id, startSlot', endSlot', pathLength) /\
    (startSlot' < endSlot')%N /\
    (1 <= pathLength)%N /\
    (forall j, (j < pathLength)%N ->
       exists c, getTrajectoryCoordinate 1 j two_cars = Ok c) /\
    (forall j, (pathLength <= j)%N ->
       getTrajectoryCoordinate 1 j two_cars = Revert "Invalid coordinate").
Proof.
  apply (@getters_agree [SubmitTrajectory 9 0 10 [remote];
                         SubmitTrajectory 1 10 20 [origin]] 1).
  reflexivity.
Defined.

(** * Properties of the client utilities *)

(** ** Reading the ledger back *)

Lemma nth_error_middle {A : Type} (pre : list A) (a : A) (suf : list A) :
  nth_error (pre ++ a :: suf) (length pre) = Some a.
Proof.
  rewrite nth_error_app2 by lia. now rewrite Nat.sub_diag.
Qed.

Lemma fetchCoordinates_spec (s : State) (i : nat) (t : Trajectory) :
  nth_error (validatedTrajectories s) i = Some t ->
  forall rest pre,
    path t = pre ++ rest ->
    fetchCoordinates s i (length pre) (length rest) =
    Ok (map (fun c => mkTrajectoryCoordinate (latitude c) (longitude c)) rest).
Proof.
  intros Ht. induction rest as [| c rest IH]; intros pre Hp; [reflexivity |].
  cbn [length fetchCoordinates]. unfold fetchTrajectoryCoordinate.
  rewrite getTrajectoryCoordinate_spec, !Nat2N.id, Ht, Hp, nth_error_middle.
  cbn [bind fst snd].
  specialize (IH (pre ++ [c])). rewrite length_app in IH. cbn [length] in IH.
  replace (length pre + 1) with (S (length pre)) in IH by lia.
  rewrite IH by (rewrite <- app_assoc; exact Hp). reflexivity.
Qed.

Lemma fetchTrajectories_spec (s : State) :
  forall rest pre,
    validatedTrajectories s = pre ++ rest ->
    fetchTrajectories s (length pre) (length rest) =
    Ok (mirrors (length pre) rest).
Proof.
  induction rest as [| t rest IH]; intros pre Hl; [reflexivity |].
  assert (Ht : nth_error (validatedTrajectories s) (length pre) = Some t)
    by (rewrite Hl; apply nth_error_middle).
  cbn [length fetchTrajectories]. unfold fetchTrajectoryMeta.
  rewrite getTrajectoryMeta_spec, Nat2N.id, Ht. cbn [bind meta_pathLength].
  rewrite Nat2N.id.
  pose proof (@fetchCoordinates_spec s (length pre) t Ht (path t) [] eq_refl)
    as Hc.
  cbn [length] in Hc. rewrite Hc. cbn [bind].
  specialize (IH (pre ++ [t])). rewrite length_app in IH. cbn [length] in IH.
  replace (length pre + 1) with (S (length pre)) in IH by lia.
  rewrite IH by (rewrite <- app_assoc; exact Hl). reflexivity.
Qed.

Lemma mirrors_app (l1 l2 : list Trajectory) :
  forall i, mirrors i (l1 ++ l2) = mirrors i l1 ++ mirrors (i + length l1) l2.
Proof.
  induction l1 as [| t l1 IH]; intros i; cbn [app mirrors length].
  - now rewrite Nat.add_0_r.
  - rewrite IH. now replace (S i + length l1) with (i + S (length l1)) by lia.
Qed.

Lemma mirrors_nth (l : list Trajectory) :
  forall i k t,
    nth_error l k = Some t -> nth_error (mirrors i l) k = Some (mirror (i + k) t).
Proof.
  induction l as [| a l IH]; intros i [| k] t H; try discriminate.
  - injection H as ->. now rewrite Nat.add_0_r.
  - cbn [mirrors nth_error] in *. rewrite (IH (S i) k t H).
    now replace (S i + k) with (i + S k) by lia.
Qed.

Lemma fetchAllTrajectories_spec (s : State) :
  fetchAllTrajectories s = Ok (mirrors 0 (validatedTrajectories s)).
Proof.
  unfold fetchAllTrajectories, getTrajectoryCount. cbn [bind].
  rewrite Nat2N.id.
  exact (@fetchTrajectories_spec s (validatedTrajectories s) [] eq_refl).
Qed.

(** X10: read against one state of the contract, [fetchAllTrajectories]
    fails on no call: it returns one entry for each stored trajectory, in the
    order of the indices, and the entry of index [i] carries [i], the car,
    the two slots, the length of the path and the coordinates of the path in
    their order. *)
Theorem fetchAllTrajectories_mirrors (s : State) :
  exists loaded,
    fetchAllTrajectories s = Ok loaded /\
    length loaded = count s /\
    forall i t,
      nth_error (validatedTrajectories s) i = Some t ->
      nth_error loaded i = Some (mirror i t).
Proof.
  exists (mirrors 0 (validatedTrajectories s)).
  split; [apply fetchAllTrajectories_spec |]. split.
  - unfold count. generalize 0.
    induction (validatedTrajectories s) as [| t l IH]; intros i;
      [reflexivity |].
    cbn [mirrors length]. now rewrite IH.
  - intros i t H. exact (@mirrors_nth _ 0 i t H).
Qed.

(** X11: a reload made after further calls extends the earlier one: what was
    loaded before stays, entry for entry, and the entries of the
    trajectories accepted since are appended. *)
Theorem reload_extends (s : State) (calls : list call) :
  exists earlier newer,
    fetchAllTrajectories s = Ok earlier /\
    validatedTrajectories (run s calls) = validatedTrajectories s ++ newer /\
    fetchAllTrajectories (run s calls) =
      Ok (earlier ++ mirrors (count s) newer).
Proof.
  destruct (run_extends s calls) as [newer Hn].
  exists (mirrors 0 (validatedTrajectories s)), newer.
  split; [apply fetchAllTrajectories_spec |]. split; [assumption |].
  rewrite fetchAllTrajectories_spec, Hn, mirrors_app. reflexivity.
Qed.

(** ** Scaling within the expected range *)

Section Scaling.
Open Scope Q_scope.

Lemma Qfloor_unique (x : Q) (n : Z) :
  inject_Z n <= x -> x < inject_Z n + 1 -> Qfloor x = n.
Proof.
  intros Hl Hu.
  pose proof (Qfloor_le x) as Fl. pose proof (Qlt_floor x) as Fu.
  rewrite inject_Z_plus in Fu. change (inject_Z 1) with 1 in Fu.
  assert (H1 : inject_Z (Qfloor x) < inject_Z (n + 1)).
  { rewrite inject_Z_plus. change (inject_Z 1) with 1. lra. }
  assert (H2 : inject_Z n < inject_Z (Qfloor x + 1)).
  { rewrite inject_Z_plus. change (inject_Z 1) with 1. lra. }
  rewrite <- Zlt_Qlt in H1, H2. lia.
Qed.

Lemma scaleCoordinate_close (v : float) :
  Qabs (to_Q v) <= 180 ->
  exists k,
    scaleCoordinate v = Some k /\
    (Z.abs k <= 180 * 10 ^ 6)%Z /\
    Qabs (inject_Z k - to_Q v * 1000000) <= (1 # 2) + 2 ^ (-26).
Proof.
  intros Hv. apply Qabs_Qle_condition in Hv.
  unfold scaleCoordinate, fmul. change (to_Q million) with 1000000.
  destruct (@RN_error (to_Q v * 1000000) 28) as (p & -> & Ep); [lia | |].
  { change (2 ^ 28) with 268435456. apply Qabs_Qlt_condition. split; lra. }
  pose proof (Math_round_error p) as Ek.
  set (k := Math_round p) in *. exists k.
  apply Qabs_Qle_condition in Ep, Ek.
  change (2 ^ (28 - 54)) with (1 # 67108864) in Ep.
  split; [reflexivity |]. split.
  - assert (H1 : inject_Z k < inject_Z 180000001).
    { change (inject_Z 180000001) with 180000001. lra. }
    assert (H2 : inject_Z (-180000001) < inject_Z k).
    { change (inject_Z (-180000001)) with (-180000001). lra. }
    rewrite <- Zlt_Qlt in H1, H2. change (180 * 10 ^ 6)%Z with 180000000%Z.
    lia.
  - change (2 ^ (-26)) with (1 # 67108864).
    apply Qabs_Qle_condition. split; lra.
Qed.

Lemma formatted_in_range (ds : list Degrees) :
  Forall in_degrees ds ->
  forall p, formatPathForContract ds = Some p -> in_range_path p.
Proof.
  induction 1 as [| d ds [Hla Hlo] _ IH]; intros p Hp.
  - injection Hp as <-. constructor.
  - cbn [formatPathForContract] in Hp.
    destruct (scaleCoordinate_close Hla) as (la & Ela & Rla & _).
    destruct (scaleCoordinate_close Hlo) as (lo & Elo & Rlo & _).
    rewrite Ela, Elo in Hp.
    destruct (formatPathForContract ds) as [p' |]; [| discriminate].
    injection Hp as <-.
    constructor; [split; assumption | now apply IH].
Qed.

(** X12: for points whose two numbers are within 180 degrees,
    [formatPathForContract] returns a path of the same length, and all
    its coordinates lie in the expected range of the contract. *)
Theorem formatPathForContract_in_range (ds : list Degrees) :
  Forall in_degrees ds ->
  exists p,
    formatPathForContract ds = Some p /\
    length p = length ds /\
    in_range_path p.
Proof.
  induction 1 as [| d ds [Hla Hlo] _ (p & Hp & Hlen & Hr)].
  - exists []. repeat split. constructor.
  - destruct (scaleCoordinate_close Hla) as (la & Ela & Rla & _).
    destruct (scaleCoordinate_close Hlo) as (lo & Elo & Rlo & _).
    exists (mkCoordinate la lo :: p). cbn [formatPathForContract].
    rewrite Ela, Elo, Hp. split; [reflexivity |].
    split; [cbn [length]; now rewrite Hlen |].
    constructor; [split; assumption | assumption].
Qed.

Lemma formatPathForContract_in_range_witness :
  exists p,
    formatPathForContract [mkDegrees sample_degrees (mkFloat (-5) (-1))]
      = Some p /\
    length p = length [mkDegrees sample_degrees (mkFloat (-5) (-1))] /\
    in_range_path p.
Proof.
  apply formatPathForContract_in_range.
  repeat constructor; vm_compute; discriminate.
Defined.

(** X14: an integer of the expected range is recovered from the number shown
    for it: [scaleCoordinate (unscaleCoordinate k)] is [k]. *)
Theorem scale_unscale (k : Z) :
  (Z.abs k <= 180 * 10 ^ 6)%Z ->
  exists u, unscaleCoordinate k = Some u /\ scaleCoordinate u = Some k.
Proof.
  intros Hk. change (180 * 10 ^ 6)%Z with 180000000%Z in Hk.
  assert (Hk1 : inject_Z k <= inject_Z 180000000) by (rewrite <- Zle_Qle; lia).
  assert (Hk2 : inject_Z (-180000000) <= inject_Z k)
    by (rewrite <- Zle_Qle; lia).
  change (inject_Z 180000000) with 180000000 in Hk1.
  change (inject_Z (-180000000)) with (-180000000) in Hk2.
  unfold unscaleCoordinate, Number_of.
  destruct (@RN_error (inject_Z k) 28) as (k' & -> & Ek'); [lia | |].
  { change (2 ^ 28) with 268435456. apply Qabs_Qlt_condition. split; lra. }
  apply Qabs_Qle_condition in Ek'.
  change (2 ^ (28 - 54)) with (1 # 67108864) in Ek'.
  unfold fdiv. change (Qeq_bool (to_Q million) 0) with false. cbv iota.
  change (to_Q million) with 1000000.
  assert (Ediv : to_Q k' / 1000000 == to_Q k' * (1 # 1000000)) by reflexivity.
  destruct (@RN_error (to_Q k' / 1000000) 8) as (u & -> & Eu); [lia | |].
  { change (2 ^ 8) with 256. rewrite Ediv.
    apply Qabs_Qlt_condition. split; lra. }
  rewrite Ediv in Eu. apply Qabs_Qle_condition in Eu.
  change (2 ^ (8 - 54)) with (1 # 70368744177664) in Eu.
  exists u. split; [reflexivity |].
  unfold scaleCoordinate, fmul. change (to_Q million) with 1000000.
  destruct (@RN_error (to_Q u * 1000000) 28) as (p & -> & Ep); [lia | |].
  { change (2 ^ 28) with 268435456. apply Qabs_Qlt_condition. split; lra. }
  apply Qabs_Qle_condition in Ep.
  change (2 ^ (28 - 54)) with (1 # 67108864) in Ep.
  f_equal. unfold Math_round. apply Qfloor_unique; lra.
Qed.

Lemma scale_unscale_witness :
  exists u,
    unscaleCoordinate 137373081 = Some u /\
    scaleCoordinate u = Some 137373081%Z.
Proof.
  apply scale_unscale. vm_compute. discriminate.
Defined.
End Scaling.

(** X13: when every path submitted was built by [formatPathForContract] from
    points within 180 degrees, every stored coordinate lies in the expected
    range and no call of the sequence aborts with a [Panic]. *)
Theorem client_submissions_never_panic (calls : list call) :
  Forall from_client calls ->
  in_range_ledger (validatedTrajectories (run genesis calls)) /\
  forall before c after code,
    calls = before ++ c :: after ->
    snd (transact (run genesis before) c) <> Panic code.
Proof.
  intros H.
  assert (Hr : Forall submitted_in_range calls).
  { eapply Forall_impl; [| exact H].
    intros [id st en p | | |] Hc; cbn [submitted_in_range]; try exact I.
    destruct Hc as (ds & Hds & Hp).
    exact (formatted_in_range Hds Hp). }
  split; [apply run_in_range; [constructor | assumption] |].
  intros before c after code ->.
  apply Forall_app in Hr. destruct Hr as [Hb Hc].
  inversion Hc as [| ? ? Hc1 _]; subst.
  apply transact_in_range; [| assumption].
  apply run_in_range; [constructor | assumption].
Qed.

Lemma client_submissions_never_panic_witness :
  in_range_ledger
    (validatedTrajectories
       (run genesis
          [SubmitTrajectory 1 0 10 [origin];
           SubmitTrajectory 2 5 15 [mkCoordinate 137373081 (-2500000)]])) /\
  forall before c after code,
    [SubmitTrajectory 1 0 10 [origin];
     SubmitTrajectory 2 5 15 [mkCoordinate 137373081 (-2500000)]] =
    before ++ c :: after ->
    snd (transact (run genesis before) c) <> Panic code.
Proof.
  apply (@client_submissions_never_panic
           [SubmitTrajectory 1 0 10 [origin];
            SubmitTrajectory 2 5 15 [mkCoordinate 137373081 (-2500000)]]).
  repeat constructor;
    [exists [mkDegrees (mkFloat 0 0) (mkFloat 0 0)]
    | exists [mkDegrees sample_degrees (mkFloat (-5) (-1))]];
    (split; [repeat constructor; vm_compute; discriminate
            | vm_compute; reflexivity]).
Defined.

(** ** Timestamps *)

Section Timestamps.
Open Scope Q_scope.

Lemma rne_integer (x : Q) (M : Z) : x == inject_Z M -> rne x = M.
Proof.
  intros Hx. unfold rne. rewrite (Qfloor_comp _ _ Hx), Qfloor_Z.
  assert (E : Qcompare (x - inject_Z M) (1 # 2) = Lt)
    by (apply (proj1 (Qlt_alt _ _)); lra).
  now rewrite E.
Qed.

Lemma RN_exact (q : Q) (m : Z) :
  q == inject_Z m -> (Z.abs m < 2 ^ 53)%Z ->
  exists f, RN q = Some f /\ to_Q f == q.
Proof.
  intros Hq Hm. unfold RN.
  destruct (Qeq_bool q 0) eqn:E0.
  - apply Qeq_bool_eq in E0. exists (mkFloat 0 0). split; [reflexivity |].
    rewrite to_Q_zero. now symmetry.
  - apply Qeq_bool_neq in E0.
    assert (Habs : Qabs q < 2 ^ 53).
    { rewrite Hq. change (Qabs (inject_Z m)) with (inject_Z (Z.abs m)).
      rewrite <- pow2_inject by lia. now rewrite <- Zlt_Qlt. }
    set (e := Z.max (ilog2 q) (-1022)).
    assert (He : (e <= 52)%Z).
    { assert (ilog2 q < 53)%Z; [| lia].
      apply Qpower_lt_compat_l_inv with (q := 2); [| reflexivity].
      eapply Qle_lt_trans; [apply ilog2_lower; assumption | assumption]. }
    assert (Hx : q * 2 ^ (52 - e) == inject_Z (m * 2 ^ (52 - e))).
    { rewrite inject_Z_mult, pow2_inject by lia. now rewrite Hq. }
    rewrite (rne_integer Hx).
    assert (Ef : to_Q (mkFloat (m * 2 ^ (52 - e)) (e - 52)) == q).
    { unfold to_Q. cbn [mant expo]. rewrite <- Hx, <- Qmult_assoc, <- pow2_add.
      replace (52 - e + (e - 52))%Z with 0%Z by lia.
      change (2 ^ 0) with 1. apply Qmult_1_r. }
    exists (mkFloat (m * 2 ^ (52 - e)) (e - 52)).
    split; [| exact Ef].
    replace (Qle_bool (2 ^ 1024)
               (Qabs (to_Q (mkFloat (m * 2 ^ (52 - e)) (e - 52)))))
      with false; [reflexivity |].
    symmetry. apply not_true_is_false. intros Hle.
    apply Qle_bool_iff in Hle. rewrite Ef in Hle.
    assert (H1 : 2 ^ 53 <= 2 ^ 1024) by (apply pow2_le; lia).
    lra.
Qed.

Lemma timestamp_in_seconds (ts : float) (t : Z) :
  to_Q ts == inject_Z t -> (t <= 10 ^ 12)%Z ->
  timestampToSeconds ts = Some t.
Proof.
  intros Hts Ht. unfold timestampToSeconds, fgt.
  replace (Qle_bool (to_Q ts) (to_Q million_millions)) with true.
  - cbn [negb]. unfold Math_floor. now rewrite Hts, Qfloor_Z.
  - symmetry. apply Qle_bool_iff. rewrite Hts.
    change (to_Q million_millions) with (inject_Z (10 ^ 12)).
    now rewrite <- Zle_Qle.
Qed.

Lemma timestamp_in_milliseconds (ts : float) (t : Z) :
  to_Q ts == inject_Z t -> (10 ^ 12 < t < 2 ^ 53)%Z ->
  timestampToSeconds ts = Some (t / 1000)%Z.
Proof.
  intros Hts Ht. unfold timestampToSeconds, fgt.
  replace (Qle_bool (to_Q ts) (to_Q million_millions)) with false.
  2:{ symmetry. apply not_true_is_false. intros Hle.
      apply Qle_bool_iff in Hle. rewrite Hts in Hle.
      change (to_Q million_millions) with (inject_Z (10 ^ 12)) in Hle.
      rewrite <- Zle_Qle in Hle. lia. }
  cbn [negb]. unfold fdiv.
  change (Qeq_bool (to_Q thousand) 0) with false. cbv iota.
  change (to_Q thousand) with 1000.
  set (m := (t / 1000)%Z). set (r := (t mod 1000)%Z).
  assert (Hdiv : t = (1000 * m + r)%Z) by (apply Z.div_mod; lia).
  assert (Hr : (0 <= r < 1000)%Z) by (apply Z.mod_pos_bound; lia).
  assert (Hq : to_Q ts / 1000 == inject_Z m + inject_Z r * (1 # 1000)).
  { rewrite Hts, Hdiv, inject_Z_plus, inject_Z_mult.
    change (inject_Z 1000) with 1000. field. }
  assert (Hm : (0 <= m < 2 ^ 53)%Z).
  { unfold m. split; [apply Z.div_pos; lia |].
    apply Z.div_lt_upper_bound; lia. }
  destruct (Z.eq_dec r 0) as [E | E].
  - assert (Hq' : to_Q ts / 1000 == inject_Z m).
    { rewrite Hq, E. change (inject_Z 0) with 0. ring. }
    destruct (@RN_exact _ m Hq') as (f & -> & Ef); [lia |].
    unfold Math_floor. now rewrite Ef, Hq', Qfloor_Z.
  - assert (Hr1 : inject_Z 1 <= inject_Z r) by (rewrite <- Zle_Qle; lia).
    assert (Hr2 : inject_Z r <= inject_Z 999) by (rewrite <- Zle_Qle; lia).
    change (inject_Z 1) with 1 in Hr1. change (inject_Z 999) with 999 in Hr2.
    assert (Hm1 : inject_Z 0 <= inject_Z m) by (rewrite <- Zle_Qle; lia).
    assert (Hm2 : inject_Z m < inject_Z (10 ^ 13)).
    { rewrite <- Zlt_Qlt. unfold m. apply Z.div_lt_upper_bound; lia. }
    change (inject_Z 0) with 0 in Hm1.
    change (inject_Z (10 ^ 13)) with 10000000000000 in Hm2.
    destruct (@RN_error (to_Q ts / 1000) 44) as (f & -> & Ef); [lia | |].
    { change (2 ^ 44) with 17592186044416. rewrite Hq.
      apply Qabs_Qlt_condition. split; lra. }
    rewrite Hq in Ef. apply Qabs_Qle_condition in Ef.
    change (2 ^ (44 - 54)) with (1 # 1024) in Ef.
    unfold Math_floor. f_equal. apply Qfloor_unique; lra.
Qed.
End Timestamps.

(** X15: for a timestamp that is an integer below [2 ^ 53],
    [timestampToSeconds] returns the integer itself up to [1e12], and above
    [1e12] its quotient by 1000 rounded down, whatever the rounding of the
    division. *)
Theorem timestampToSeconds_integer (ts : float) (t : Z) :
  (to_Q ts == inject_Z t)%Q ->
  (t < 2 ^ 53)%Z ->
  timestampToSeconds ts =
  Some (if (10 ^ 12 <? t)%Z then (t / 1000)%Z else t).
Proof.
  intros Hts Ht. destruct (Z.ltb_spec (10 ^ 12) t) as [Hms | Hs].
  - apply timestamp_in_milliseconds; [assumption | lia].
  - now apply timestamp_in_seconds.
Qed.

Lemma timestampToSeconds_integer_witness :
  timestampToSeconds (mkFloat 1700000000999 0) = Some 1700000000%Z.
Proof.
  apply (@timestampToSeconds_integer (mkFloat 1700000000999 0) 1700000000999);
    reflexivity.
Defined.

(** X16: two timestamps in milliseconds with [startTime < endTime] pass the
    check of the client; converted by [timestampToSeconds] and submitted
    with a non-empty path, they fail "Invalid time window" in the contract
    exactly when they lie in the same second. *)
Theorem same_second_window (ts1 ts2 : float) (t1 t2 : Z) (id : N)
    (p : list Coordinate) (s : State) :
  (to_Q ts1 == inject_Z t1)%Q ->
  (to_Q ts2 == inject_Z t2)%Q ->
  (10 ^ 12 < t1)%Z -> (t1 < t2)%Z -> (t2 < 2 ^ 53)%Z ->
  p <> [] ->
  exists a b,
    timestampToSeconds ts1 = Some a /\
    timestampToSeconds ts2 = Some b /\
    fgt ts2 ts1 = true /\
    (submitTrajectory id (Z.to_N a) (Z.to_N b) p s =
       Revert "Invalid time window"
     <-> (t1 / 1000 = t2 / 1000)%Z).
Proof.
  intros H1 H2 Hlo Hlt Hhi Hp.
  exists (t1 / 1000)%Z, (t2 / 1000)%Z.
  split; [apply timestamp_in_milliseconds; [assumption | lia] |].
  split; [apply timestamp_in_milliseconds; [assumption | lia] |].
  split.
  { unfold fgt. apply negb_true_iff, not_true_is_false. intros Hle.
    apply Qle_bool_iff in Hle. rewrite H1, H2 in Hle.
    rewrite <- Zle_Qle in Hle. lia. }
  rewrite submitTrajectory_spec. destruct p as [| c cs]; [congruence |].
  unfold toSlot, TIME_SLOT. rewrite !N.div_1_r.
  assert (Ha : (0 <= t1 / 1000)%Z) by (apply Z.div_pos; lia).
  assert (Hab : (t1 / 1000 <= t2 / 1000)%Z) by (apply Z.div_le_mono; lia).
  destruct (N.ltb_spec (Z.to_N (t1 / 1000)) (Z.to_N (t2 / 1000)))
    as [Hw | Hw].
  - split; [| lia]. unfold isCollision.
    pose proof (@scanTrajectories_no_revert (validatedTrajectories s)
                  (Z.to_N (t1 / 1000)) (Z.to_N (t2 / 1000)) (c :: cs)
                  "Invalid time window") as Hn.
    destruct (scanTrajectories _ _ _ _) as [[] | m | code];
      try discriminate.
    intros E. exfalso. apply Hn. now injection E as ->.
  - split; [lia | reflexivity].
Qed.

Lemma same_second_window_witness :
  exists a b,
    timestampToSeconds (mkFloat 1700000000001 0) = Some a /\
    timestampToSeconds (mkFloat 1700000000999 0) = Some b /\
    fgt (mkFloat 1700000000999 0) (mkFloat 1700000000001 0) = true /\
    (submitTrajectory 1 (Z.to_N a) (Z.to_N b) [origin] genesis =
       Revert "Invalid time window"
     <-> (1700000000001 / 1000 = 1700000000999 / 1000)%Z).
Proof.
  apply (@same_second_window (mkFloat 1700000000001 0)
           (mkFloat 1700000000999 0) 1700000000001 1700000000999);
    [reflexivity | reflexivity | lia | lia | lia | discriminate].
Defined.
